(** * rfbutton: a shallow embedding of [src/src/lib.rs] and its properties.

    Durations are [u16] values, modelled as [Z] together with Rust's integer
    semantics: an arithmetic overflow panics in a debug build and wraps in a
    release build; a division by zero panics in both. *)

From Stdlib Require Import ZArith List Bool Lia String Ascii.
Import ListNotations.
Open Scope Z_scope.

Module Decoder.

(** Rust build profile: selects what an integer overflow does. *)
Inductive profile := Debug | Release.

(** The reasons a Rust integer operation can panic. *)
Inductive panic := Overflow | DivideByZero.

(** A computation that either returns or panics. *)
Inductive outcome (A : Type) := Done (a : A) | Panic (p : panic).
Arguments Done {A} a.
Arguments Panic {A} p.

Definition bind {A B} (m : outcome A) (k : A -> outcome B) : outcome B :=
  match m with Done a => k a | Panic p => Panic p end.

Declare Scope outcome_scope.
Notation "x <- m ;; k" := (bind m (fun x => k))
  (at level 61, m at next level, right associativity) : outcome_scope.
Open Scope outcome_scope.

(** Unsigned addition on a [bits]-wide integer ([+] in Rust). *)
Definition add_uint (bits : Z) (pr : profile) (a b : Z) : outcome Z :=
  let r := a + b in
  if r <? 2 ^ bits then Done r
  else match pr with
       | Debug => Panic Overflow
       | Release => Done (r mod 2 ^ bits)
       end.

Definition add_u16 := add_uint 16.
Definition add_u8 := add_uint 8.

(** Unsigned division ([/] in Rust). *)
Definition div_uint (a b : Z) : outcome Z :=
  if b =? 0 then Panic DivideByZero else Done (a / b).

(** [v << k] on a [u32]: the bits shifted out are lost. *)
Definition shl_u32 (v k : Z) : Z := Z.land (Z.shiftl v k) (Z.ones 32).

Definition BREAK_PULSE_LENGTH : Z := 3000.

(** [enum Error] *)
Inductive Error :=
| NoStart
| TooShort
| InvalidPulseLength (high low : Z).

(** [struct Code { value: u32, length: u8 }] *)
Record Code := mkCode { value : Z; length : Z }.

(** [Result<Code, Error>] *)
Inductive result := Ok (c : Code) | Err (e : Error).

(** [Iterator::position] *)
Fixpoint position (f : Z -> bool) (l : list Z) : option nat :=
  match l with
  | [] => None
  | x :: r => if f x then Some 0%nat else option_map S (position f r)
  end.

(** [Iterator::sum::<u16>]: a left fold of [+] from [0]. *)
Fixpoint sum_from (pr : profile) (acc : Z) (l : list Z) : outcome Z :=
  match l with
  | [] => Done acc
  | x :: r => s <- add_u16 pr acc x;; sum_from pr s r
  end.

Definition sum_u16 (pr : profile) (l : list Z) : outcome Z := sum_from pr 0 l.

(** [round_div::<u16>]: [(dividend + divisor / 2) / divisor]. *)
Definition round_div (pr : profile) (dividend divisor : Z) : outcome Z :=
  h <- div_uint divisor 2;;
  s <- add_u16 pr dividend h;;
  div_uint s divisor.

(** The [while let (Some(&high), Some(&low)) = (pulses.next(), pulses.next())]
    loop of [decode]; [value] is a [u32], [length] a [u8]. An unpaired last
    pulse ends the loop. *)
Fixpoint decode_loop (pr : profile) (short_duration : Z) (pulses : list Z)
    (value length : Z) : outcome result :=
  match pulses with
  | high :: low :: rest =>
      high_period <- round_div pr high short_duration;;
      low_period <- round_div pr low short_duration;;
      if (high_period =? 3) && (low_period =? 1) then
        length' <- add_u8 pr length 1;;
        decode_loop pr short_duration rest (Z.lor (shl_u32 value 1) 1) length'
      else if (high_period =? 1) && (low_period =? 3) then
        length' <- add_u8 pr length 1;;
        decode_loop pr short_duration rest (shl_u32 value 1) length'
      else if (BREAK_PULSE_LENGTH <? high) || (BREAK_PULSE_LENGTH <? low) then
        Done (Ok (mkCode value length))
      else Done (Err (InvalidPulseLength high low))
  | _ => Done (Ok (mkCode value length))
  end.

Definition is_break (pulse : Z) : bool := BREAK_PULSE_LENGTH <? pulse.

(** [pub fn decode(pulses: &[u16]) -> Result<Code, Error>] *)
Definition decode (pr : profile) (pulses : list Z) : outcome result :=
  match position is_break pulses with
  | None => Done (Err NoStart)
  | Some i =>
      let pulses := skipn (S i) pulses in
      if (List.length pulses <? 4)%nat then Done (Err TooShort)
      else
        s <- sum_u16 pr (firstn 4 pulses);;
        let short_duration := s / 8 in
        decode_loop pr short_duration pulses 0 0
  end.

(** The PWM decoding algorithm in the words of the specification (§4.1):
    [T] is the exact sum of the first four post-break intervals divided by 8,
    periods are rounded with [(x + T/2) / T], [(3, 1)] appends a 1 bit and
    [(1, 3)] a 0 bit to the [u32] value, MSB first. *)
Definition spec_round (x d : Z) : Z := (x + d / 2) / d.

Fixpoint spec_bits (T : Z) (pulses : list Z) (value length : Z) : result :=
  match pulses with
  | high :: low :: rest =>
      let hp := spec_round high T in
      let lp := spec_round low T in
      if (hp =? 3) && (lp =? 1) then
        spec_bits T rest (Z.lor (shl_u32 value 1) 1) (length + 1)
      else if (hp =? 1) && (lp =? 3) then
        spec_bits T rest (shl_u32 value 1) (length + 1)
      else if (BREAK_PULSE_LENGTH <? high) || (BREAK_PULSE_LENGTH <? low) then
        Ok (mkCode value length)
      else Err (InvalidPulseLength high low)
  | _ => Ok (mkCode value length)
  end.

Definition decode_spec (pulses : list Z) : result :=
  match position is_break pulses with
  | None => Err NoStart
  | Some i =>
      let rest := skipn (S i) pulses in
      if (List.length rest <? 4)%nat then Err TooShort
      else spec_bits (fold_right Z.add 0 (firstn 4 rest) / 8) rest 0 0
  end.

(** Inputs of the crate's tests and of the spec. *)
Definition short_pulses : list Z :=
  [300; 10000; 1000; 333; 1000; 333; 333; 1000; 1000; 333].

Definition short_repeated_pulses : list Z :=
  [300; 10000; 1000; 333; 1000; 333; 333; 1000; 1000; 333; 333; 10000; 1000; 333].

Definition full_pulses : list Z :=
  [320; 10060; 320; 960; 960; 300; 300; 960; 320; 960; 960; 300; 300; 960; 300; 980; 300;
   960; 960; 300; 320; 960; 960; 300; 960; 320; 300; 960; 300; 960; 960; 320; 300; 960;
   960; 320; 300; 960; 960; 320; 300; 960; 300; 960; 980; 300; 300; 960; 320; 960; 300;
   10080; 320; 960; 960; 320; 300; 960; 300; 960; 980; 300; 300; 960; 320; 960; 300; 960;
   960; 320; 300; 960; 960; 320; 960; 300; 300; 960; 320; 960; 960; 300; 320; 960; 960;
   300; 320; 960; 960; 300; 320; 960; 300; 960; 960; 320; 300; 960; 320; 960; 300; 10080;
   320; 960; 960; 320; 300; 960; 300; 960; 960; 320; 300; 960; 320; 960; 300; 960; 960;
   320; 300; 960; 960; 320; 960; 300; 320; 960; 300; 960; 960; 320; 300; 960; 960; 320;
   300; 960; 960; 320; 300; 960; 300; 960; 980; 300; 300; 960; 320; 960; 300; 10100; 300;
   980; 960; 300; 300; 960; 320; 960; 960; 300; 320; 960; 300; 960; 300; 980; 960; 300;
   320; 960; 960; 300; 960; 320; 300; 960; 320; 960; 960; 300; 320; 960; 960; 300; 320;
   960; 960; 300; 320; 960; 300; 960; 960; 320; 300; 960; 300; 960; 320; 10100; 300; 960;
   960; 320; 300; 960; 320; 940; 980; 300; 300; 980; 300; 960; 300; 960; 980; 300; 300;
   960; 960; 320; 960; 320; 300; 960; 300; 960; 980; 300; 300; 960; 960; 320; 300; 960;
   980; 300; 300; 960; 320; 960; 960; 300; 320; 960; 300; 960; 320; 10080; 320; 960; 960;
   300; 320; 960; 300; 960; 960; 320; 300; 960; 320; 960; 300; 960; 960; 320; 300; 960;
   960; 320; 960; 300; 320; 960; 300; 960; 960; 320; 300; 960; 960; 320; 300; 960; 960;
   320; 300; 960; 320; 960; 960; 300; 320; 960; 300].

End Decoder.

(** ** The [serde] feature: hexadecimal (de)serialization of a [Code] *)

Module Serde.
Import Decoder.

(** [Result<A, E>] *)
Inductive res (A E : Type) := ROk (a : A) | RErr (e : E).
Arguments ROk {A E} a.
Arguments RErr {A E} e.

(** [core::num::IntErrorKind] as [from_str_radix] reports it. *)
Inductive IntErrorKind := Empty | InvalidDigit | PosOverflow.

(** The errors the two impls raise: [Serialize]'s custom "multiple of 4"
    error, [Deserialize]'s "no more than 8 characters" error and the
    [ParseIntError] it forwards. *)
Inductive SerdeError :=
| NotMultipleOf4
| TooLong
| ParseError (k : IntErrorKind).

Definition u32_max : Z := 2 ^ 32 - 1.

(** [char::to_digit(16)]: ['0'..'9'], then the byte with bit 0x20 forced
    (lower case) in ['a'..'f']. *)
Definition to_digit16 (c : ascii) : option Z :=
  let n := Z.of_nat (nat_of_ascii c) in
  let digit := n - 48 in
  if (0 <=? digit) && (digit <? 10) then Some digit
  else
    let d := Z.lor n 32 - 97 in
    if (0 <=? d) && (d <? 6) then Some (d + 10) else None.

(** The digit loop of [u32::from_str_radix(src, 16)]: the digit is checked
    before the multiplication's and the addition's overflow checks. *)
Fixpoint parse_digits (result : Z) (digits : list ascii) : res Z IntErrorKind :=
  match digits with
  | [] => ROk result
  | c :: rest =>
      let mul := result * 16 in
      match to_digit16 c with
      | None => RErr InvalidDigit
      | Some x =>
          if u32_max <? mul then RErr PosOverflow
          else
            let r := mul + x in
            if u32_max <? r then RErr PosOverflow else parse_digits r rest
      end
  end.

Definition is_empty {A} (l : list A) : bool :=
  match l with [] => true | _ => false end.

(** [u32::from_str_radix(src, 16)] on the bytes of [src]: an optional
    leading ['+'] (a lone sign is an invalid digit; ['-'] is no sign for an
    unsigned type). *)
Definition from_str_radix16 (src : list ascii) : res Z IntErrorKind :=
  match src with
  | [] => RErr Empty
  | c :: rest =>
      if (Ascii.eqb c "+"%char || Ascii.eqb c "-"%char) && is_empty rest then
        RErr InvalidDigit
      else if Ascii.eqb c "+"%char then parse_digits 0 rest
      else parse_digits 0 src
  end.

(** A lower-case hex digit, as [{:x}] writes it. *)
Definition hex_digit (d : Z) : ascii :=
  ascii_of_nat (Z.to_nat (if d <? 10 then 48 + d else 87 + d)).

(** [<u32 as LowerHex>::fmt]: digits are written from the end of the buffer,
    least significant first, until the value is 0 (a [u32] has at most 8). *)
Fixpoint fmt_hex_loop (fuel : nat) (x : Z) (acc : list ascii) : list ascii :=
  match fuel with
  | O => acc
  | S f =>
      let acc' := hex_digit (x mod 16) :: acc in
      let x' := x / 16 in
      if x' =? 0 then acc' else fmt_hex_loop f x' acc'
  end.

Definition lower_hex (x : Z) : list ascii := fmt_hex_loop 8 x [].

(** A [width] with the [0] flag: zeros before the digits up to [width]. *)
Definition pad_zeros (width : nat) (digits : list ascii) : list ascii :=
  List.repeat "0"%char (width - List.length digits) ++ digits.

(** [impl Serialize for Code]: [format!("{:01$x}", value, length / 4)]. *)
Definition serialize (c : Code) : res string SerdeError :=
  if negb (length c mod 4 =? 0) then RErr NotMultipleOf4
  else
    ROk (string_of_list_ascii
           (pad_zeros (Z.to_nat (length c / 4)) (lower_hex (value c)))).

(** [impl Deserialize for Code]; [s.len()] counts bytes. *)
Definition deserialize (s : string) : res Code SerdeError :=
  if (8 <? String.length s)%nat then RErr TooLong
  else
    match from_str_radix16 (list_ascii_of_string s) with
    | ROk v => ROk (mkCode v (Z.of_nat (String.length s) * 4))
    | RErr k => RErr (ParseError k)
    end.

(** Vocabulary of the statements: the [n] low hex digits of [x], most
    significant first; lower-case hex digits; hex digits of either case and
    the value of a string of them. *)
Definition p16 (n : nat) : Z := 16 ^ Z.of_nat n.

Fixpoint hex_fixed (n : nat) (x : Z) : list ascii :=
  match n with
  | O => []
  | S m => hex_digit ((x / p16 m) mod 16) :: hex_fixed m x
  end.

Definition is_lower_hex (c : ascii) : bool :=
  let n := nat_of_ascii c in
  (((48 <=? n) && (n <=? 57)) || ((97 <=? n) && (n <=? 102)))%nat.

Definition is_hex (c : ascii) : bool :=
  match to_digit16 c with Some _ => true | None => false end.

Definition hex_step (acc : Z) (c : ascii) : Z :=
  acc * 16 + match to_digit16 c with Some d => d | None => 0 end.

Definition hex_value (l : list ascii) : Z := fold_left hex_step l 0.

End Serde.

(** ** The callers: [receive] of [examples/gpio.rs] and [examples/rfm69.rs]

    Both examples capture a code with the same function. The receiver pin is
    an event source: an edge to a new level, seen at an [Instant] (a time in
    nanoseconds), a quiet period of [MAX_PULSE_LENGTH] without any edge, or a
    GPIO error. [poll_interrupt(false, None)] blocks through quiet periods;
    [poll_interrupt(false, Some(MAX_PULSE_LENGTH))] returns [None] on one. *)

Module Capture.

(** [rppal::gpio::Level] *)
Inductive Level := High | Low.

Definition level_eqb (a b : Level) : bool :=
  match a, b with High, High | Low, Low => true | _, _ => false end.

Inductive pin_event :=
| Edge (level : Level) (t : Z)
| Quiet
| GpioError.

(** The [eyre::Report]s [receive] returns: a failed poll (forwarded by [?]),
    the [bail!] on a [None] initial level, and "Pulse length too long". *)
Inductive Report := PollFailed | UnexpectedInitialLevel | PulseTooLong.

(** What a call of [receive] amounts to on a finite event sequence: it returns
    [Ok(pulses)] or [Err(report)], or it is still waiting for an event. *)
Inductive received := Received (pulses : list Z) | Failed (e : Report) | Waiting.

(** [Duration::from_millis(7)] in nanoseconds. *)
Definition BREAK_PULSE_LENGTH : Z := 7000000.

(** [timestamp - last_timestamp] on [Instant]s: saturates at zero. *)
Definition elapsed (timestamp last_timestamp : Z) : Z :=
  Z.max 0 (timestamp - last_timestamp).

(** [Duration::as_micros] *)
Definition as_micros (d : Z) : Z := d / 1000.

(** [u128::try_into::<u16>()] *)
Definition try_into_u16 (x : Z) : option Z :=
  if (0 <=? x) && (x <=? 65535) then Some x else None.

(** A poll of the pin. *)
Inductive poll_result :=
| Polled (level : option (Level * Z)) (rest : list pin_event)
| PollErr
| NoEvent.

(** [rx_pin.poll_interrupt(false, None)] followed by [Instant::now()]. *)
Fixpoint poll_blocking (evs : list pin_event) : poll_result :=
  match evs with
  | [] => NoEvent
  | Edge level t :: rest => Polled (Some (level, t)) rest
  | Quiet :: rest => poll_blocking rest
  | GpioError :: _ => PollErr
  end.

(** The second loop, "Reading pulses": every interval is pushed, and the first
    one longer than [BREAK_PULSE_LENGTH] ends the capture, as does a poll that
    times out. *)
Fixpoint read_pulses (evs : list pin_event) (last_timestamp : Z) (pulses : list Z)
    : received :=
  match evs with
  | [] => Waiting
  | GpioError :: _ => Failed PollFailed
  | Quiet :: _ => Received pulses
  | Edge _ timestamp :: rest =>
      let pulse_length := elapsed timestamp last_timestamp in
      match try_into_u16 (as_micros pulse_length) with
      | None => Failed PulseTooLong
      | Some p =>
          if BREAK_PULSE_LENGTH <? pulse_length then Received (pulses ++ [p])
          else read_pulses rest timestamp (pulses ++ [p])
      end
  end.

(** The first loop, "Wait for a long pulse to start"; its polls block, so a
    quiet period is waited through. On a falling edge ending an interval shorter
    than [BREAK_PULSE_LENGTH] that follows one longer than it, both are pushed
    and the second loop starts. *)
Fixpoint wait_start (evs : list pin_event) (last_timestamp last_pulse : Z) : received :=
  match evs with
  | [] => Waiting
  | GpioError :: _ => Failed PollFailed
  | Quiet :: rest => wait_start rest last_timestamp last_pulse
  | Edge level timestamp :: rest =>
      let pulse_length := elapsed timestamp last_timestamp in
      if level_eqb level High && (BREAK_PULSE_LENGTH <? pulse_length) then
        wait_start rest timestamp pulse_length
      else if level_eqb level Low && (BREAK_PULSE_LENGTH <? last_pulse)
              && (pulse_length <? BREAK_PULSE_LENGTH) then
        match try_into_u16 (as_micros last_pulse) with
        | None => Failed PulseTooLong
        | Some a =>
            match try_into_u16 (as_micros pulse_length) with
            | None => Failed PulseTooLong
            | Some b => read_pulses rest timestamp [a; b]
            end
        end
      else wait_start rest timestamp pulse_length
  end.

(** [fn receive(rx_pin: &mut InputPin) -> Result<Vec<u16>, Report>]; the
    initial [last_pulse] is [Duration::default()]. *)
Definition receive (evs : list pin_event) : received :=
  match poll_blocking evs with
  | NoEvent => Waiting
  | PollErr => Failed PollFailed
  | Polled None _ => Failed UnexpectedInitialLevel
  | Polled (Some (_, timestamp)) rest => wait_start rest timestamp 0
  end.

(** A capture as the pin delivers it: an initial edge, a break of 8 ms, then
    the intervals of the crate's short test code, and a final break. *)
Definition capture_events : list pin_event :=
  [Edge High 0; Edge High 8000000; Edge Low 9000000;
   Edge High 9333000; Edge Low 10333000; Edge High 10666000; Edge Low 10999000;
   Edge High 11999000; Edge Low 12999000; Edge High 13332000; Edge Low 23332000].

End Capture.

Module DecoderFacts.
Import Decoder.

Example decode_no_start : decode Debug [] = Done (Err NoStart).
Proof. reflexivity. Qed.

Example decode_short : decode Debug short_pulses = Done (Ok (mkCode 13 4)).
Proof. reflexivity. Qed.

Example decode_short_repeated :
  decode Debug short_repeated_pulses = Done (Ok (mkCode 13 4)).
Proof. reflexivity. Qed.

Example decode_full : decode Debug full_pulses = Done (Ok (mkCode 4764324 24)).
Proof. vm_compute. reflexivity. Qed.

Example decode_invalid :
  decode Debug [5000; 500; 500; 500; 500] = Done (Err (InvalidPulseLength 500 500)).
Proof. reflexivity. Qed.

(** ** Debug-profile arithmetic agrees with mathematical arithmetic *)

Lemma add_uint_debug bits a b r :
  add_uint bits Debug a b = Done r -> r = a + b.
Proof.
  unfold add_uint. destruct (a + b <? 2 ^ bits); congruence.
Qed.

Lemma div_uint_done a b r : div_uint a b = Done r -> r = a / b.
Proof.
  unfold div_uint. destruct (b =? 0); congruence.
Qed.

Lemma sum_from_debug acc l s :
  sum_from Debug acc l = Done s -> s = acc + fold_right Z.add 0 l.
Proof.
  revert acc. induction l as [|x l IH]; intros acc H; cbn [sum_from fold_right] in *.
  - injection H. lia.
  - destruct (add_u16 Debug acc x) as [a|] eqn:E; cbn [bind] in H; [|discriminate].
    apply add_uint_debug in E. apply IH in H. lia.
Qed.

Lemma round_div_debug x d r :
  round_div Debug x d = Done r -> r = spec_round x d.
Proof.
  unfold round_div, spec_round.
  destruct (div_uint d 2) as [h|] eqn:E1; cbn [bind]; [|discriminate].
  destruct (add_u16 Debug x h) as [t|] eqn:E2; cbn [bind]; [|discriminate].
  intros E3. apply div_uint_done in E1, E3. apply add_uint_debug in E2. subst. reflexivity.
Qed.

(** Whenever the debug build's loop returns, it returns what the spec's loop does. *)
Lemma decode_loop_debug :
  forall l T value length r,
  decode_loop Debug T l value length = Done r -> spec_bits T l value length = r.
Proof.
  fix IH 1. intros [|h [|lo rest]] T value length r H; cbn [decode_loop spec_bits] in *.
  - congruence.
  - congruence.
  - destruct (round_div Debug h T) as [hp|] eqn:E1; cbn [bind] in H; [|discriminate].
    destruct (round_div Debug lo T) as [lp|] eqn:E2; cbn [bind] in H; [|discriminate].
    apply round_div_debug in E1, E2. subst hp lp.
    destruct ((spec_round h T =? 3) && (spec_round lo T =? 1)).
    + destruct (add_u8 Debug length 1) as [n|] eqn:E; cbn [bind] in H; [|discriminate].
      apply add_uint_debug in E. subst n. exact (IH rest _ _ _ _ H).
    + destruct ((spec_round h T =? 1) && (spec_round lo T =? 3)).
      * destruct (add_u8 Debug length 1) as [n|] eqn:E; cbn [bind] in H; [|discriminate].
        apply add_uint_debug in E. subst n. exact (IH rest _ _ _ _ H).
      * destruct ((BREAK_PULSE_LENGTH <? h) || (BREAK_PULSE_LENGTH <? lo)); congruence.
Qed.

Lemma firstn4_sum (l : list Z) :
  (4 <= List.length l)%nat ->
  exists a b c d rest, l = a :: b :: c :: d :: rest /\ firstn 4 l = [a; b; c; d].
Proof.
  intros H. destruct l as [|a [|b [|c [|d rest]]]]; cbn [List.length] in H; try lia.
  exists a, b, c, d, rest. split; reflexivity.
Qed.

(** The loop never reports a missing start pulse. *)
Lemma decode_loop_not_no_start :
  forall pr l T value length, decode_loop pr T l value length <> Done (Err NoStart).
Proof.
  fix IH 2. intros pr [|h [|lo rest]] T value length; cbn [decode_loop]; try discriminate.
  destruct (round_div pr h T) as [hp|]; cbn [bind]; [|discriminate].
  destruct (round_div pr lo T) as [lp|]; cbn [bind]; [|discriminate].
  destruct ((hp =? 3) && (lp =? 1)).
  - destruct (add_u8 pr length 1); cbn [bind]; [apply IH | discriminate].
  - destruct ((hp =? 1) && (lp =? 3)).
    + destruct (add_u8 pr length 1); cbn [bind]; [apply IH | discriminate].
    + destruct ((BREAK_PULSE_LENGTH <? h) || (BREAK_PULSE_LENGTH <? lo)); discriminate.
Qed.

Lemma position_break_none p :
  position is_break p = None <-> Forall (fun x => x <= BREAK_PULSE_LENGTH) p.
Proof.
  induction p as [|x p IH]; cbn [position].
  - split; auto.
  - unfold is_break at 1. destruct (BREAK_PULSE_LENGTH <? x) eqn:E.
    + split; [discriminate|]. intros HF. inversion HF; subst.
      apply Z.ltb_lt in E. lia.
    + apply Z.ltb_ge in E. split.
      * intros H. constructor; [exact E|]. apply IH.
        destruct (position is_break p); [discriminate|reflexivity].
      * intros HF. inversion HF; subst. apply IH in H2. rewrite H2. reflexivity.
Qed.

(** Bits of a PWM symbol as rounded periods: 1 is [(3, 1)], 0 is [(1, 3)]. *)
Definition bit_periods (b : bool) : Z * Z := if b then (3, 1) else (1, 3).

(** Input of [Code] length 33: a break, then 33 symbols "1" at T = 333. *)
Definition long_pulses : list Z := 5000 :: List.concat (List.repeat [1000; 333] 33).

(** ** Claims *)

(** C1: [decode] implements the specified PWM algorithm. Whenever the
    (overflow-checked) debug build of [decode] returns a result, it is the
    result of [decode_spec]: [T] is the quotient of the exact sum of the first
    four post-break intervals by 8, a pair rounded to [(3, 1)] appends a 1
    bit and [(1, 3)] a 0 bit, MSB first. In particular
    [decode([300, 10000, 1000, 333, 1000, 333, 333, 1000, 1000, 333])] is
    [Ok(Code { value: 13, length: 4 })]. *)
Theorem decode_implements_pwm :
  (forall p r, decode Debug p = Done r -> decode_spec p = r) /\
  decode Debug short_pulses = Done (Ok (mkCode 13 4)) /\
  decode Release short_pulses = Done (Ok (mkCode 13 4)) /\
  decode_spec short_pulses = Ok (mkCode 13 4).
Proof.
  split; [|split; [reflexivity | split; reflexivity]].
  intros p r H. unfold decode, decode_spec in *.
  destruct (position is_break p) as [i|]; [|congruence].
  destruct (List.length (skipn (S i) p) <? 4)%nat eqn:Hlen; [congruence|].
  destruct (sum_u16 Debug (firstn 4 (skipn (S i) p))) as [s|] eqn:Hs;
    cbn [bind] in H; [|discriminate].
  apply sum_from_debug in Hs. rewrite Z.add_0_l in Hs. subst s.
  exact (decode_loop_debug _ _ _ _ _ H).
Qed.

(** C2 (code bug): [decode] is not total. When the first four post-break
    intervals sum to less than 8, [short_duration] is 0 and [round_div]
    divides by zero (in every build); a break interval near [u16::MAX] makes
    [high + short_duration / 2] overflow (a panic in a debug build). *)
Theorem decode_traps :
  decode Debug [5000; 1; 1; 1; 1] = Panic DivideByZero /\
  decode Release [5000; 1; 1; 1; 1] = Panic DivideByZero /\
  decode Debug [5000; 1000; 333; 1000; 333; 65535; 333] = Panic Overflow.
Proof. repeat split; reflexivity. Qed.

(** C3 (code bug): the unit estimator sums in [u16]. Four post-break
    intervals of 20000 µs sum to 80000 > 65535: a debug build panics, a
    release build wraps the sum to 14464, so [short_duration] is 1808 and
    not 80000 / 8 = 10000. *)
Theorem estimator_sum_overflows :
  sum_u16 Debug [20000; 20000; 20000; 20000] = Panic Overflow /\
  decode Debug [5000; 20000; 20000; 20000; 20000] = Panic Overflow /\
  sum_u16 Release [20000; 20000; 20000; 20000] = Done 14464 /\
  14464 / 8 = 1808 /\ (20000 + 20000 + 20000 + 20000) / 8 = 10000.
Proof. repeat split; reflexivity. Qed.

(** C4 (counterexample): a pair whose high interval exceeds the break
    threshold but rounds to [(3, 1)] is decoded as a 1 bit, so decoding goes
    on instead of stopping with the 0 bits accumulated before it. *)
Lemma break_pair_decoded_as_bit :
  decode Debug [5000; 3300; 1100; 3300; 1100] = Done (Ok (mkCode 3 2)) /\
  decode Debug [5000; 3300; 1100; 3300; 1100] <> Done (Ok (mkCode 0 0)).
Proof. split; [reflexivity | discriminate]. Qed.

(** C4 (amended): when the loop meets a pair whose rounded periods are
    neither [(3, 1)] nor [(1, 3)] and one of whose raw intervals exceeds
    3000 µs, decoding stops without error and returns exactly the bits
    accumulated so far, whatever they are (also none). *)
Theorem break_pair_ends_decoding pr T high low rest value length hp lp
  (Hh : round_div pr high T = Done hp)
  (Hl : round_div pr low T = Done lp)
  (Hsym : ~ ((hp = 3 /\ lp = 1) \/ (hp = 1 /\ lp = 3)))
  (Hbrk : BREAK_PULSE_LENGTH < high \/ BREAK_PULSE_LENGTH < low) :
  decode_loop pr T (high :: low :: rest) value length
  = Done (Ok (mkCode value length)).
Proof.
  cbn [decode_loop]. rewrite Hh, Hl. cbn [bind].
  destruct ((hp =? 3) && (lp =? 1)) eqn:E1.
  { apply andb_true_iff in E1. destruct E1 as [E1 E2].
    apply Z.eqb_eq in E1, E2. exfalso. tauto. }
  destruct ((hp =? 1) && (lp =? 3)) eqn:E2.
  { apply andb_true_iff in E2. destruct E2 as [E2 E3].
    apply Z.eqb_eq in E2, E3. exfalso. tauto. }
  destruct Hbrk as [Hb|Hb]; apply Z.ltb_lt in Hb; rewrite Hb;
    [|rewrite orb_true_r]; reflexivity.
Qed.

Lemma break_pair_ends_decoding_witness :
  decode Debug [300; 10000; 1000; 333; 1000; 333; 10000; 333; 1000]
  = Done (Ok (mkCode 3 2)) /\
  decode_loop Debug 333 [10000; 333; 1000] 3 2 = Done (Ok (mkCode 3 2)).
Proof.
  split; [reflexivity|].
  apply (break_pair_ends_decoding Debug 333 10000 333 [1000] 3 2 30 1);
    [reflexivity | reflexivity | lia | unfold BREAK_PULSE_LENGTH; lia].
Defined.

(** C5 (code bug): [length] is not bounded by 32. Thirty-three "1" symbols
    after a break decode to [length = 33]; the [u32] value keeps only the
    low 32 of the 33 bits. *)
Theorem decode_length_exceeds_32 :
  decode Debug long_pulses = Done (Ok (mkCode 4294967295 33)).
Proof. vm_compute. reflexivity. Qed.

(** C9: [decode] fails with [NoStart] exactly when no interval exceeds
    3000 µs; in particular on the empty input. *)
Theorem decode_no_start_iff pr p :
  decode pr p = Done (Err NoStart) <->
  Forall (fun x => x <= BREAK_PULSE_LENGTH) p.
Proof.
  rewrite <- position_break_none. unfold decode.
  destruct (position is_break p) as [i|]; [|split; reflexivity].
  split; [|discriminate]. intros H.
  destruct (List.length (skipn (S i) p) <? 4)%nat; [discriminate|].
  destruct (sum_u16 pr (firstn 4 (skipn (S i) p))); cbn [bind] in H; [|discriminate].
  exfalso. exact (decode_loop_not_no_start _ _ _ _ _ H).
Qed.

(** C10: the four post-break intervals that estimate [T] are decoded too:
    the loop starts at the first interval after the break, so those four
    intervals are its first two pairs and give the first two bits. *)
Theorem estimator_pulses_are_decoded pr p i h0 l0 h1 l1 tail s
  (Hstart : position is_break p = Some i)
  (Hrest : skipn (S i) p = h0 :: l0 :: h1 :: l1 :: tail)
  (Hsum : sum_u16 pr [h0; l0; h1; l1] = Done s) :
  decode pr p = decode_loop pr (s / 8) (h0 :: l0 :: h1 :: l1 :: tail) 0 0 /\
  (forall b0 b1,
     round_div pr h0 (s / 8) = Done (fst (bit_periods b0)) ->
     round_div pr l0 (s / 8) = Done (snd (bit_periods b0)) ->
     round_div pr h1 (s / 8) = Done (fst (bit_periods b1)) ->
     round_div pr l1 (s / 8) = Done (snd (bit_periods b1)) ->
     decode pr p = decode_loop pr (s / 8) tail (2 * Z.b2z b0 + Z.b2z b1) 2).
Proof.
  assert (Hdec : decode pr p = decode_loop pr (s / 8) (h0 :: l0 :: h1 :: l1 :: tail) 0 0).
  { unfold decode. rewrite Hstart, Hrest. cbn [List.length Nat.ltb Nat.leb firstn].
    rewrite Hsum. reflexivity. }
  split; [exact Hdec|]. intros b0 b1 E1 E2 E3 E4. rewrite Hdec.
  cbn [decode_loop]. rewrite E1, E2. cbn [bind].
  destruct b0; cbn [bit_periods fst snd Z.eqb Pos.eqb andb].
  - change (add_u8 pr 0 1) with (Done (A:=Z) 1). cbn [bind decode_loop].
    rewrite E3, E4. cbn [bind].
    destruct b1; cbn [bit_periods fst snd Z.eqb Pos.eqb andb]; reflexivity.
  - change (add_u8 pr 0 1) with (Done (A:=Z) 1). cbn [bind decode_loop].
    rewrite E3, E4. cbn [bind].
    destruct b1; cbn [bit_periods fst snd Z.eqb Pos.eqb andb]; reflexivity.
Qed.

Lemma estimator_pulses_are_decoded_witness :
  decode Debug short_pulses = decode_loop Debug 333 [333; 1000; 1000; 333] 3 2.
Proof.
  refine (proj2 (estimator_pulses_are_decoded Debug short_pulses 1 1000 333 1000 333
                  [333; 1000; 1000; 333] 2666 eq_refl eq_refl eq_refl) true true
                _ _ _ _); reflexivity.
Defined.

End DecoderFacts.

Module SerdeFacts.
Import Decoder Serde.

Example serde_code_000 : serialize (mkCode 0 12) = ROk "000"%string /\
  deserialize "000" = ROk (mkCode 0 12).
Proof. split; reflexivity. Qed.

Example serde_code_f : serialize (mkCode 15 4) = ROk "f"%string /\
  deserialize "f" = ROk (mkCode 15 4).
Proof. split; reflexivity. Qed.

Example serde_code_123456 : serialize (mkCode 1193046 24) = ROk "123456"%string /\
  deserialize "123456" = ROk (mkCode 1193046 24).
Proof. split; reflexivity. Qed.

Example serde_code_abcdef : serialize (mkCode 11259375 24) = ROk "abcdef"%string /\
  deserialize "abcdef" = ROk (mkCode 11259375 24).
Proof. split; reflexivity. Qed.

Example serde_code_ff112233 : serialize (mkCode 4279312947 32) = ROk "ff112233"%string /\
  deserialize "ff112233" = ROk (mkCode 4279312947 32).
Proof. split; reflexivity. Qed.

Example deserialize_too_long : deserialize "123456789" = RErr TooLong.
Proof. reflexivity. Qed.

Example deserialize_not_hex : deserialize "12g" = RErr (ParseError InvalidDigit).
Proof. reflexivity. Qed.

(** ** Powers of 16 *)

Lemma p16_pos n : 0 < p16 n.
Proof. unfold p16. apply Z.pow_pos_nonneg; lia. Qed.

Lemma p16_S n : p16 (S n) = 16 * p16 n.
Proof. unfold p16. rewrite Nat2Z.inj_succ, Z.pow_succ_r; lia. Qed.

Lemma p16_add j m : p16 (j + m) = p16 j * p16 m.
Proof. unfold p16. rewrite Nat2Z.inj_add, Z.pow_add_r; lia. Qed.

Lemma p16_mono m n : (m <= n)%nat -> p16 m <= p16 n.
Proof.
  intros H. replace n with ((n - m) + m)%nat by lia. rewrite p16_add.
  pose proof (p16_pos (n - m)). pose proof (p16_pos m). nia.
Qed.

Lemma pow2_p16 k : 2 ^ (Z.of_nat k * 4) = p16 k.
Proof.
  unfold p16. rewrite Z.mul_comm, Z.pow_mul_r by lia. reflexivity.
Qed.

(** ** Hex digits, by enumeration *)

Lemma hex_digit_props d :
  0 <= d < 16 ->
  to_digit16 (hex_digit d) = Some d /\ is_lower_hex (hex_digit d) = true /\
  Ascii.eqb (hex_digit d) "+"%char = false /\ Ascii.eqb (hex_digit d) "-"%char = false.
Proof.
  intros H. assert (Hd : exists n, (n < 16)%nat /\ d = Z.of_nat n)
    by (exists (Z.to_nat d); lia).
  destruct Hd as [n [Hn ->]].
  do 16 (destruct n as [|n]; [repeat split; reflexivity|]). lia.
Qed.

Lemma lower_hex_char c :
  is_lower_hex c = true ->
  exists d, to_digit16 c = Some d /\ hex_digit d = c /\ 0 <= d < 16.
Proof.
  destruct c as [[] [] [] [] [] [] [] []]; intros H; vm_compute in H;
    try discriminate H; eexists; (split; [reflexivity | split; [reflexivity | split; vm_compute; congruence]]).
Qed.

Lemma to_digit16_range c d : to_digit16 c = Some d -> 0 <= d < 16.
Proof.
  unfold to_digit16.
  destruct ((0 <=? Z.of_nat (nat_of_ascii c) - 48) && (Z.of_nat (nat_of_ascii c) - 48 <? 10))
    eqn:E1.
  - intros H. injection H as <-. apply andb_true_iff in E1.
    destruct E1 as [E1 E2]. apply Z.leb_le in E1. apply Z.ltb_lt in E2. lia.
  - destruct ((0 <=? Z.lor (Z.of_nat (nat_of_ascii c)) 32 - 97) &&
              (Z.lor (Z.of_nat (nat_of_ascii c)) 32 - 97 <? 6)) eqn:E2; [|discriminate].
    intros H. injection H as <-. apply andb_true_iff in E2.
    destruct E2 as [E2 E3]. apply Z.leb_le in E2. apply Z.ltb_lt in E3. lia.
Qed.

(** ** The [n] low hex digits of a number *)

Lemma hex_fixed_length n x : List.length (hex_fixed n x) = n.
Proof. induction n as [|n IH]; cbn [hex_fixed List.length]; congruence. Qed.

Lemma hex_fixed_shift n : forall k x, hex_fixed n (k * p16 n + x) = hex_fixed n x.
Proof.
  induction n as [|m IH]; intros k x; [reflexivity|]. cbn [hex_fixed].
  pose proof (p16_pos m) as Hp. rewrite p16_S.
  replace (k * (16 * p16 m) + x) with ((k * 16) * p16 m + x) by ring.
  rewrite IH, Z.div_add_l by lia. rewrite Z.add_comm, Z.mod_add by lia. reflexivity.
Qed.

Lemma hex_fixed_mod n x : hex_fixed n x = hex_fixed n (x mod p16 n).
Proof.
  pose proof (p16_pos n) as Hp.
  rewrite (Z.div_mod x (p16 n)) at 1 by lia.
  rewrite Z.mul_comm. apply hex_fixed_shift.
Qed.

Lemma hex_fixed_snoc m x :
  hex_fixed (S m) x = hex_fixed m (x / 16) ++ [hex_digit (x mod 16)].
Proof.
  induction m as [|k IH].
  - cbn [hex_fixed app]. change (p16 0) with 1. rewrite Z.div_1_r. reflexivity.
  - change (hex_fixed (S (S k)) x) with
      (hex_digit ((x / p16 (S k)) mod 16) :: hex_fixed (S k) x).
    rewrite IH. cbn [hex_fixed app]. pose proof (p16_pos k).
    rewrite Z.div_div, <- p16_S by lia. reflexivity.
Qed.

Lemma hex_fixed_zeros j m x :
  0 <= x < p16 m -> hex_fixed (j + m) x = List.repeat "0"%char j ++ hex_fixed m x.
Proof.
  intros Hx. induction j as [|j IH]; [reflexivity|].
  cbn [Nat.add hex_fixed List.repeat app]. rewrite IH.
  rewrite Z.div_small; [reflexivity|].
  pose proof (p16_mono m (j + m) ltac:(lia)). lia.
Qed.

Lemma hex_fixed_lower n x : forallb is_lower_hex (hex_fixed n x) = true.
Proof.
  induction n as [|n IH]; [reflexivity|]. cbn [hex_fixed forallb].
  rewrite IH, andb_true_r.
  apply hex_digit_props, Z.mod_pos_bound. lia.
Qed.

(** ** [{:x}] writes the significant hex digits of a [u32] *)

Lemma fmt_hex_loop_fixed :
  forall f x acc, (1 <= f)%nat -> 0 <= x < p16 f ->
  exists k, (1 <= k <= f)%nat /\ x < p16 k /\ (k = 1%nat \/ p16 (k - 1) <= x) /\
    fmt_hex_loop f x acc = hex_fixed k x ++ acc.
Proof.
  induction f as [|f IH]; intros x acc Hf Hx; [lia|].
  cbn [fmt_hex_loop]. pose proof (Z.div_mod x 16 ltac:(lia)) as Hdm.
  pose proof (Z.mod_pos_bound x 16 ltac:(lia)) as Hmb.
  destruct (x / 16 =? 0) eqn:E.
  - apply Z.eqb_eq in E. exists 1%nat. split; [lia|]. split.
    { change (p16 1) with 16. lia. }
    split; [left; reflexivity|]. cbn [hex_fixed app].
    change (p16 0) with 1. rewrite Z.div_1_r. reflexivity.
  - apply Z.eqb_neq in E.
    assert (Hq : 1 <= x / 16) by (pose proof (Z.div_pos x 16 ltac:(lia) ltac:(lia)); lia).
    destruct f as [|f'].
    { exfalso. change (p16 1) with 16 in Hx. rewrite Z.div_small in E by lia. lia. }
    assert (Hq' : x / 16 < p16 (S f')).
    { apply Z.div_lt_upper_bound; [lia|]. rewrite <- p16_S. lia. }
    destruct (IH (x / 16) (hex_digit (x mod 16) :: acc)) as [k [Hk [Hxk [Hmin Heq]]]];
      [lia | lia |].
    exists (S k). split; [lia|]. split; [rewrite p16_S; lia|]. split.
    + right. replace (S k - 1)%nat with k by lia.
      destruct Hmin as [->|Hmin]; [change (p16 1) with 16; lia|].
      destruct k as [|k']; [lia|]. rewrite p16_S.
      replace (S k' - 1)%nat with k' in Hmin by lia. lia.
    + rewrite Heq, hex_fixed_snoc, <- app_assoc. reflexivity.
Qed.

Lemma pad_lower_hex n x :
  (1 <= n)%nat -> 0 <= x < p16 n -> x < p16 8 ->
  pad_zeros n (lower_hex x) = hex_fixed n x.
Proof.
  intros Hn Hx H8. unfold lower_hex.
  destruct (fmt_hex_loop_fixed 8 x [] ltac:(lia) ltac:(lia)) as [k [Hk [Hxk [Hmin Heq]]]].
  rewrite Heq, app_nil_r. unfold pad_zeros. rewrite hex_fixed_length.
  assert (Hkn : (k <= n)%nat).
  { destruct (Nat.le_gt_cases k n) as [H|H]; [exact H|]. exfalso.
    destruct Hmin as [->|Hmin]; [lia|].
    pose proof (p16_mono n (k - 1) ltac:(lia)). lia. }
  rewrite <- (hex_fixed_zeros (n - k) k x) by lia. f_equal. lia.
Qed.

(** ** [from_str_radix] on hex digits *)

Lemma string_length_list s : String.length s = List.length (list_ascii_of_string s).
Proof. induction s as [|c s IH]; cbn; congruence. Qed.

Lemma parse_digits_spec :
  forall l acc, 0 <= acc -> (acc + 1) * p16 (List.length l) <= 2 ^ 32 ->
  parse_digits acc l =
  if forallb is_hex l then ROk (fold_left hex_step l acc) else RErr InvalidDigit.
Proof.
  induction l as [|c l IH]; intros acc Hacc Hb; [reflexivity|].
  cbn [parse_digits forallb fold_left List.length] in *. rewrite p16_S in Hb.
  pose proof (p16_pos (List.length l)) as Hp.
  unfold is_hex at 1. unfold hex_step at 2.
  destruct (to_digit16 c) as [d|] eqn:Ed; [|reflexivity].
  apply to_digit16_range in Ed. cbn [andb].
  assert (Hm : (acc + 1) * 16 <= 2 ^ 32) by nia.
  replace (u32_max <? acc * 16) with false
    by (symmetry; apply Z.ltb_ge; unfold u32_max; lia).
  replace (u32_max <? acc * 16 + d) with false
    by (symmetry; apply Z.ltb_ge; unfold u32_max; lia).
  apply IH; nia.
Qed.

Lemma parse_digits_0 l :
  (List.length l <= 8)%nat ->
  parse_digits 0 l = if forallb is_hex l then ROk (hex_value l) else RErr InvalidDigit.
Proof.
  intros H. apply parse_digits_spec; [lia|].
  pose proof (p16_mono _ _ H). change (p16 8) with (2 ^ 32) in *. lia.
Qed.

Lemma hex_fixed_is_hex n x : forallb is_hex (hex_fixed n x) = true.
Proof.
  induction n as [|n IH]; [reflexivity|]. cbn [hex_fixed forallb].
  rewrite IH, andb_true_r. unfold is_hex.
  rewrite (proj1 (hex_digit_props _ (Z.mod_pos_bound _ 16 ltac:(lia)))). reflexivity.
Qed.

Lemma fold_hex_fixed n : forall acc x, 0 <= x < p16 n ->
  fold_left hex_step (hex_fixed n x) acc = acc * p16 n + x.
Proof.
  induction n as [|m IH]; intros acc x Hx.
  - change (p16 0) with 1 in *. cbn. lia.
  - cbn [hex_fixed fold_left]. pose proof (p16_pos m) as Hp. rewrite p16_S in *.
    assert (Hq : 0 <= x / p16 m < 16).
    { split; [apply Z.div_pos; lia | apply Z.div_lt_upper_bound; lia]. }
    rewrite (Z.mod_small (x / p16 m)) by lia.
    unfold hex_step at 2. rewrite (proj1 (hex_digit_props _ Hq)).
    rewrite hex_fixed_mod, IH by (apply Z.mod_pos_bound; lia).
    pose proof (Z.div_mod x (p16 m) ltac:(lia)). nia.
Qed.

Lemma parse_hex_fixed n x :
  (n <= 8)%nat -> 0 <= x < p16 n -> parse_digits 0 (hex_fixed n x) = ROk x.
Proof.
  intros Hn Hx. rewrite parse_digits_0 by (rewrite hex_fixed_length; lia).
  rewrite hex_fixed_is_hex. unfold hex_value. rewrite fold_hex_fixed by lia. reflexivity.
Qed.

Lemma from_str_radix16_hex l :
  l <> [] -> forallb is_hex l = true -> from_str_radix16 l = parse_digits 0 l.
Proof.
  destruct l as [|c rest]; intros Hne H; [congruence|]. cbn [from_str_radix16].
  cbn [forallb] in H. apply andb_true_iff in H. destruct H as [Hc _].
  destruct (Ascii.eqb_spec c "+"%char) as [->|_]; [vm_compute in Hc; discriminate Hc|].
  destruct (Ascii.eqb_spec c "-"%char) as [->|_]; [vm_compute in Hc; discriminate Hc|].
  reflexivity.
Qed.

(** Lower-case hex strings are their own fixed-width rendering. *)
Lemma lower_hex_fixed :
  forall l acc, forallb is_lower_hex l = true ->
  exists w, 0 <= w < p16 (List.length l) /\
    fold_left hex_step l acc = acc * p16 (List.length l) + w /\
    hex_fixed (List.length l) w = l.
Proof.
  induction l as [|c l IH]; intros acc Hl.
  - exists 0. change (p16 0) with 1. cbn. split; [lia | split; [lia | reflexivity]].
  - cbn [forallb] in Hl. apply andb_true_iff in Hl. destruct Hl as [Hc Hl].
    destruct (lower_hex_char c Hc) as [d [Hd [Hdc Hdr]]].
    destruct (IH (acc * 16 + d) Hl) as [w [Hw [Hf Hh]]].
    pose proof (p16_pos (List.length l)) as Hp.
    exists (d * p16 (List.length l) + w). cbn [List.length fold_left hex_fixed].
    rewrite p16_S. split; [nia|]. split.
    + unfold hex_step at 2. rewrite Hd, Hf. nia.
    + rewrite hex_fixed_shift, Hh, Z.div_add_l, (Z.div_small w) by lia.
      rewrite Z.add_0_r, Z.mod_small, Hdc by lia. reflexivity.
Qed.

Lemma lower_is_hex l : forallb is_lower_hex l = true -> forallb is_hex l = true.
Proof.
  induction l as [|c l IH]; [reflexivity|]. cbn [forallb].
  intros H. apply andb_true_iff in H. destruct H as [Hc Hl].
  destruct (lower_hex_char c Hc) as [d [Hd _]].
  rewrite IH by exact Hl. unfold is_hex. rewrite Hd. reflexivity.
Qed.

Lemma from_str_radix16_ok l v :
  (List.length l <= 8)%nat ->
  from_str_radix16 l = ROk v <->
  exists body, (l = body \/ l = "+"%char :: body) /\ body <> [] /\
    forallb is_hex body = true /\ v = hex_value body.
Proof.
  intros Hlen. destruct l as [|c rest].
  { cbn. split; [discriminate|]. intros (body & [H|H] & Hne & _); congruence. }
  cbn [from_str_radix16].
  destruct (Ascii.eqb_spec c "+"%char) as [->|Hc].
  - destruct rest as [|c2 rest'].
    + cbn. split; [discriminate|].
      intros (body & [H|H] & Hne & Hh & _); [subst body; discriminate | congruence].
    + cbn [orb andb is_empty]. cbn [List.length] in Hlen.
      rewrite parse_digits_0 by (cbn [List.length]; lia).
      destruct (forallb is_hex (c2 :: rest')) eqn:Eh.
      * split.
        { intros H. injection H as <-. exists (c2 :: rest'). repeat split; auto; discriminate. }
        { intros (body & [H|H] & Hne & Hh & ->).
          - subst body. discriminate.
          - injection H as <-. reflexivity. }
      * split; [discriminate|].
        intros (body & [H|H] & Hne & Hh & _); [subst body; discriminate|].
        injection H as <-. congruence.
  - destruct (Ascii.eqb_spec c "-"%char) as [->|Hm].
    + assert (Hno : forall w, ~ (exists body, ("-"%char :: rest = body \/
                     "-"%char :: rest = "+"%char :: body) /\ body <> [] /\
                     forallb is_hex body = true /\ w = hex_value body)).
      { intros w (body & [H|H] & Hne & Hh & _); [subst body; discriminate | discriminate]. }
      destruct rest as [|c2 rest'].
      * cbn. split; [discriminate | intros H; exfalso; exact (Hno _ H)].
      * cbn [orb andb is_empty]. rewrite parse_digits_0 by exact Hlen. cbn [forallb].
        replace (is_hex "-"%char) with false by reflexivity. cbn [andb].
        split; [discriminate | intros H; exfalso; exact (Hno _ H)].
    + cbn [orb andb]. rewrite parse_digits_0 by exact Hlen.
      destruct (forallb is_hex (c :: rest)) eqn:Eh.
      * split.
        { intros H. injection H as <-. exists (c :: rest). repeat split; auto; discriminate. }
        { intros (body & [H|H] & Hne & Hh & ->); [subst body; reflexivity|].
          injection H as ->. congruence. }
      * split; [discriminate|].
        intros (body & [H|H] & Hne & Hh & _); [subst body; congruence|].
        injection H as ->. congruence.
Qed.

Lemma forallb_lower_zeros n : forallb is_lower_hex (List.repeat "0"%char n) = true.
Proof. induction n as [|n IH]; [reflexivity|]. cbn [List.repeat forallb]. exact IH. Qed.

Lemma lower_hex_all_lower x :
  0 <= x < p16 8 -> forallb is_lower_hex (lower_hex x) = true.
Proof.
  intros Hx. unfold lower_hex.
  destruct (fmt_hex_loop_fixed 8 x [] ltac:(lia) Hx) as [k [_ [_ [_ ->]]]].
  rewrite app_nil_r. apply hex_fixed_lower.
Qed.

(** The written digits: the [j] significant hex digits of [x], zero-padded to
    [width]. *)
Lemma pad_lower_hex_max width x :
  0 <= x < p16 8 ->
  exists j, (1 <= j <= 8)%nat /\ x < p16 j /\ (j = 1%nat \/ p16 (j - 1) <= x) /\
    pad_zeros width (lower_hex x) = hex_fixed (Nat.max width j) x.
Proof.
  intros Hx. destruct (fmt_hex_loop_fixed 8 x [] ltac:(lia) Hx) as [j [Hj [Hxj [Hmin Heq]]]].
  exists j. split; [exact Hj|]. split; [exact Hxj|]. split; [exact Hmin|].
  unfold lower_hex. rewrite Heq, app_nil_r. unfold pad_zeros. rewrite hex_fixed_length.
  destruct (Nat.le_gt_cases j width) as [H|H].
  - rewrite <- (hex_fixed_zeros (width - j) j x) by lia. f_equal. lia.
  - replace (width - j)%nat with 0%nat by lia. cbn [List.repeat List.app]. f_equal. lia.
Qed.

Lemma serialize_ok_width v k :
  serialize (mkCode v (Z.of_nat k * 4))
  = ROk (string_of_list_ascii (pad_zeros k (lower_hex v))).
Proof.
  unfold serialize. cbn [length value].
  rewrite Z.mod_mul, Z.div_mul, Nat2Z.id by lia. reflexivity.
Qed.

(** ** Claims *)

(** C6 (counterexample): serialization pads to at least [length / 4] digits
    but does not truncate, so a [Code] with bits set above [length] does not
    come back; and deserialization accepts upper-case digits that
    serialization writes in lower case. *)
Lemma serde_roundtrip_fails :
  serialize (mkCode 255 4) = ROk "ff"%string /\
  deserialize "ff" = ROk (mkCode 255 8) /\
  deserialize "F" = ROk (mkCode 15 4) /\
  serialize (mkCode 15 4) = ROk "f"%string.
Proof. repeat split; reflexivity. Qed.

(** C6 (amended): for every [Code] whose [length] is one of 4, 8, ..., 32 and
    whose [value] has no bit set at or above [length],
    [deserialize(serialize(c)) = c]; for every string of 1 to 8 lower-case
    hex digits, [serialize(deserialize(s)) = s]. *)
Theorem serde_roundtrip :
  (forall c, In (length c) [4; 8; 12; 16; 20; 24; 28; 32] ->
     0 <= value c < 2 ^ length c ->
     exists s, serialize c = ROk s /\ deserialize s = ROk c) /\
  (forall s, (1 <= String.length s <= 8)%nat ->
     forallb is_lower_hex (list_ascii_of_string s) = true ->
     exists c, deserialize s = ROk c /\ serialize c = ROk s).
Proof.
  split.
  - intros [v len] Hlen Hv. cbn [length value] in *.
    assert (Hk : exists k, (1 <= k <= 8)%nat /\ len = Z.of_nat k * 4).
    { cbn [In] in Hlen.
      repeat destruct Hlen as [Hlen|Hlen]; try contradiction;
        exists (Z.to_nat (len / 4)); subst len; (split; [vm_compute; lia | reflexivity]). }
    destruct Hk as [k [Hk ->]]. rewrite pow2_p16 in Hv.
    pose proof (p16_mono k 8 ltac:(lia)).
    rewrite serialize_ok_width, pad_lower_hex by lia.
    eexists; split; [reflexivity|]. unfold deserialize.
    rewrite string_length_list, list_ascii_of_string_of_list_ascii, hex_fixed_length.
    replace (8 <? k)%nat with false by (symmetry; apply Nat.ltb_ge; lia).
    rewrite from_str_radix16_hex, parse_hex_fixed by
      (first [lia | apply hex_fixed_is_hex | destruct k; [lia | discriminate]]).
    reflexivity.
  - intros s Hlen Hlow. rewrite string_length_list in *.
    destruct (lower_hex_fixed (list_ascii_of_string s) 0 Hlow) as [w [Hw [Hf Hh]]].
    set (l := list_ascii_of_string s) in *.
    assert (Hhex : forallb is_hex l = true) by (apply lower_is_hex; exact Hlow).
    exists (mkCode w (Z.of_nat (List.length l) * 4)). split.
    + unfold deserialize. rewrite string_length_list. fold l.
      replace (8 <? List.length l)%nat with false by (symmetry; apply Nat.ltb_ge; lia).
      rewrite from_str_radix16_hex, parse_digits_0, Hhex by
        (first [lia | exact Hhex | destruct l; cbn in Hlen; [lia | discriminate]]).
      unfold hex_value. rewrite Hf. reflexivity.
    + rewrite serialize_ok_width, pad_lower_hex.
      * rewrite Hh. unfold l. rewrite string_of_list_ascii_of_string. reflexivity.
      * lia.
      * exact Hw.
      * pose proof (p16_mono (List.length l) 8 ltac:(lia)). lia.
Qed.

(** C7 (counterexample): the width of [{:01$x}] is a minimum, so a value
    with more hex digits than [length / 4] is written in full, and
    [length = 0] still writes one digit. *)
Lemma serialize_longer_than_width :
  serialize (mkCode 255 4) = ROk "ff"%string /\
  serialize (mkCode 0 0) = ROk "0"%string.
Proof. split; reflexivity. Qed.

(** C7 (amended): for a [u32] value, serialization fails (with the "multiple
    of 4" error) exactly when [length % 4 <> 0]; otherwise it writes the
    lower-case hex digits of [value] (its [j] significant digits, whose
    base-16 value is [value]), zero-padded on the left to at least
    [length / 4] characters: exactly the [length / 4] low hex digits of
    [value] when [length > 0] and [value < 2 ^ length], and more than
    [length / 4] characters when [length = 0] or [value >= 2 ^ length]. *)
Theorem serialize_spec c (Hv : 0 <= value c < 2 ^ 32) :
  (serialize c = RErr NotMultipleOf4 <-> length c mod 4 <> 0) /\
  (length c mod 4 = 0 ->
   exists s, serialize c = ROk s /\
     forallb is_lower_hex (list_ascii_of_string s) = true /\
     (Z.to_nat (length c / 4) <= String.length s)%nat /\
     (0 < length c -> value c < 2 ^ length c ->
        list_ascii_of_string s = hex_fixed (Z.to_nat (length c / 4)) (value c) /\
        String.length s = Z.to_nat (length c / 4)) /\
     (exists j, (1 <= j <= 8)%nat /\ value c < p16 j /\
        (j = 1%nat \/ p16 (j - 1) <= value c) /\
        list_ascii_of_string s = hex_fixed (Nat.max (Z.to_nat (length c / 4)) j) (value c) /\
        hex_value (list_ascii_of_string s) = value c) /\
     (0 <= length c -> length c = 0 \/ 2 ^ length c <= value c ->
        (Z.to_nat (length c / 4) < String.length s)%nat)).
Proof.
  destruct c as [v len]. cbn [length value] in *. split.
  { unfold serialize. cbn [length value].
    destruct (len mod 4 =? 0) eqn:E; cbn [negb].
    - apply Z.eqb_eq in E. split; [discriminate | contradiction].
    - apply Z.eqb_neq in E. split; [intros _; exact E | reflexivity]. }
  intros Hm.
  assert (Hlen : len = Z.of_nat (Z.to_nat (len / 4)) * 4 \/ len < 0).
  { destruct (Z.le_gt_cases 0 len) as [H|H]; [left|right; lia].
    pose proof (Z.div_mod len 4 ltac:(lia)). rewrite Z2Nat.id by (apply Z.div_pos; lia).
    lia. }
  assert (Hser : serialize (mkCode v len)
                 = ROk (string_of_list_ascii (pad_zeros (Z.to_nat (len / 4)) (lower_hex v)))).
  { unfold serialize. cbn [length value]. rewrite Hm. reflexivity. }
  change (2 ^ 32) with (p16 8) in Hv.
  destruct (pad_lower_hex_max (Z.to_nat (len / 4)) v Hv) as (j & Hj & Hvj & Hmin & Hpad).
  set (k := Z.to_nat (len / 4)) in *.
  eexists; split; [exact Hser|].
  rewrite list_ascii_of_string_of_list_ascii, string_length_list,
    list_ascii_of_string_of_list_ascii.
  split; [|split; [|split; [|split]]].
  - unfold pad_zeros. rewrite forallb_app, forallb_lower_zeros, lower_hex_all_lower by exact Hv.
    reflexivity.
  - unfold pad_zeros. rewrite length_app, repeat_length. lia.
  - intros Hpos Hlt. destruct Hlen as [Hlen|Hlen]; [|lia].
    rewrite Hlen, pow2_p16 in Hlt.
    assert (H1 : (1 <= k)%nat).
    { destruct k; [|lia]. cbn in Hlen. lia. }
    rewrite pad_lower_hex by lia. split; [reflexivity | apply hex_fixed_length].
  - exists j. split; [exact Hj|]. split; [exact Hvj|]. split; [exact Hmin|].
    split; [exact Hpad|]. rewrite Hpad. unfold hex_value.
    rewrite fold_hex_fixed; [lia|].
    pose proof (p16_mono j (Nat.max k j) ltac:(lia)). lia.
  - intros Hnn Hcase. rewrite Hpad, hex_fixed_length.
    destruct Hlen as [Hlen|Hlen]; [|lia].
    destruct (Nat.le_gt_cases j k) as [Hjk|Hjk]; [|lia]. exfalso.
    destruct Hcase as [H0|H2].
    + rewrite H0 in Hlen. lia.
    + rewrite Hlen, pow2_p16 in H2. pose proof (p16_mono j k Hjk). lia.
Qed.

Lemma serialize_spec_witness :
  serialize (mkCode 4279312947 32) = ROk "ff112233"%string /\
  String.length "ff112233" = 8%nat.
Proof.
  destruct (proj2 (serialize_spec (mkCode 4279312947 32) ltac:(cbn; lia)) eq_refl)
    as [s [Hs [_ [_ [Hex _]]]]].
  split; [|reflexivity].
  rewrite Hs. f_equal.
  destruct (Hex ltac:(cbn; lia) ltac:(cbn; lia)) as [Hl _].
  rewrite <- (string_of_list_ascii_of_string s), Hl. reflexivity.
Defined.

(** C8 (code bug): [u32::from_str_radix] accepts a leading ['+'] while the
    length counts every byte: a ['+'] (not a hex character) followed by 1 to 7
    hex characters is accepted, with the value of the digits and a length that
    counts the ['+'] as a fifth, ninth, ... bit group. *)
Theorem deserialize_counts_plus s :
  (1 <= String.length s <= 7)%nat -> forallb is_hex (list_ascii_of_string s) = true ->
  is_hex "+"%char = false /\
  deserialize (String "+"%char s)
  = ROk (mkCode (hex_value (list_ascii_of_string s)) (Z.of_nat (String.length s + 1) * 4)).
Proof.
  intros Hlen Hhex. split; [reflexivity|]. unfold deserialize.
  replace (String.length (String "+"%char s)) with (String.length s + 1)%nat
    by (cbn [String.length]; lia).
  replace (8 <? String.length s + 1)%nat with false by (symmetry; apply Nat.ltb_ge; lia).
  rewrite string_length_list in Hlen.
  assert (Hok : from_str_radix16 (list_ascii_of_string (String "+"%char s))
                = ROk (hex_value (list_ascii_of_string s))).
  { apply from_str_radix16_ok; cbn [list_ascii_of_string List.length]; [lia|].
    exists (list_ascii_of_string s). split; [right; reflexivity|].
    split; [destruct (list_ascii_of_string s); cbn in Hlen; [lia | discriminate]|].
    split; [exact Hhex | reflexivity]. }
  rewrite Hok. reflexivity.
Qed.

Lemma deserialize_counts_plus_witness :
  deserialize "+1234567" = ROk (mkCode 19088743 32) /\
  serialize (mkCode 19088743 32) = ROk "01234567"%string.
Proof.
  split; [|reflexivity].
  destruct (deserialize_counts_plus "1234567" ltac:(cbn; lia) eq_refl) as [_ H].
  exact H.
Defined.




End SerdeFacts.


(** ** Further properties of [decode] and [round_div] *)

Module DecoderExtras.
Import Decoder.

Lemma div_exact_iff a d k : 0 < d -> a / d = k <-> k * d <= a < (k + 1) * d.
Proof.
  intros Hd. split.
  - intros <-. pose proof (Z.div_mod a d ltac:(lia)).
    pose proof (Z.mod_pos_bound a d Hd). nia.
  - intros Hk. symmetry. apply (Z.div_unique a d k (a - d * k)); lia.
Qed.

Lemma round_div_value pr x d :
  0 < d -> 0 <= x -> x + d / 2 < 2 ^ 16 -> round_div pr x d = Done ((x + d / 2) / d).
Proof.
  intros Hd Hx Hno. unfold round_div, div_uint.
  replace (2 =? 0) with false by reflexivity. cbn [bind].
  unfold add_u16, add_uint. replace (x + d / 2 <? 2 ^ 16) with true
    by (symmetry; apply Z.ltb_lt; exact Hno).
  cbn [bind]. replace (d =? 0) with false by (symmetry; apply Z.eqb_neq; lia).
  reflexivity.
Qed.

(** The loop's only error is [InvalidPulseLength], and it carries a pair of
    the loop's input, taken at an even offset, neither longer than a break. *)
Lemma decode_loop_err :
  forall pr l T v n e, decode_loop pr T l v n = Done (Err e) ->
  exists h lo pre post, e = InvalidPulseLength h lo /\ l = pre ++ h :: lo :: post /\
    Nat.Even (List.length pre) /\ h <= BREAK_PULSE_LENGTH /\ lo <= BREAK_PULSE_LENGTH.
Proof.
  fix IH 2. intros pr [|h [|lo rest]] T v n e H; cbn [decode_loop] in H; try discriminate.
  destruct (round_div pr h T) as [hp|]; cbn [bind] in H; [|discriminate].
  destruct (round_div pr lo T) as [lp|]; cbn [bind] in H; [|discriminate].
  assert (Hrec : forall v' n', decode_loop pr T rest v' n' = Done (Err e) ->
    exists h0 lo0 pre post, e = InvalidPulseLength h0 lo0 /\
      h :: lo :: rest = pre ++ h0 :: lo0 :: post /\ Nat.Even (List.length pre) /\
      h0 <= BREAK_PULSE_LENGTH /\ lo0 <= BREAK_PULSE_LENGTH).
  { intros v' n' H'. destruct (IH pr rest T v' n' e H')
      as (h0 & lo0 & pre & post & He & Hl & [m Hm] & Hh & Hlo).
    exists h0, lo0, (h :: lo :: pre), post. subst rest. repeat split; auto.
    exists (S m). cbn [List.length]. lia. }
  destruct ((hp =? 3) && (lp =? 1)).
  - destruct (add_u8 pr n 1); cbn [bind] in H; [exact (Hrec _ _ H) | discriminate].
  - destruct ((hp =? 1) && (lp =? 3)).
    + destruct (add_u8 pr n 1); cbn [bind] in H; [exact (Hrec _ _ H) | discriminate].
    + destruct (BREAK_PULSE_LENGTH <? h) eqn:Eh; [discriminate|].
      destruct (BREAK_PULSE_LENGTH <? lo) eqn:Elo; [discriminate|].
      injection H as <-. apply Z.ltb_ge in Eh, Elo.
      exists h, lo, [], rest. repeat split; auto. exists 0%nat. reflexivity.
Qed.

Lemma even_SS k : Nat.Even (S (S k)) -> Nat.Even k.
Proof. intros [m Hm]. exists (m - 1)%nat. lia. Qed.

(** Running the loop over a packet of an even number of intervals, then over
    what follows, is running it over both: unless the packet itself ended the
    loop at a break pair. *)
Lemma decode_loop_app pr T :
  forall B rest v n c, Nat.Even (List.length B) ->
  decode_loop pr T B v n = Done (Ok c) ->
  decode_loop pr T (B ++ rest) v n = Done (Ok c) \/
  decode_loop pr T (B ++ rest) v n = decode_loop pr T rest (value c) (length c).
Proof.
  fix IH 1. intros [|h [|lo B]] rest v n c Hev H.
  - cbn in H. injection H as <-. right. reflexivity.
  - destruct Hev as [m Hm]. cbn in Hm. lia.
  - cbn [List.app]. cbn [decode_loop] in H |- *.
    destruct (round_div pr h T) as [hp|]; cbn [bind] in H |- *; [|discriminate].
    destruct (round_div pr lo T) as [lp|]; cbn [bind] in H |- *; [|discriminate].
    apply even_SS in Hev.
    destruct ((hp =? 3) && (lp =? 1)).
    + destruct (add_u8 pr n 1); cbn [bind] in H |- *; [|discriminate].
      exact (IH B rest _ _ c Hev H).
    + destruct ((hp =? 1) && (lp =? 3)).
      * destruct (add_u8 pr n 1); cbn [bind] in H |- *; [|discriminate].
        exact (IH B rest _ _ c Hev H).
      * destruct ((BREAK_PULSE_LENGTH <? h) || (BREAK_PULSE_LENGTH <? lo));
          [left; exact H | discriminate].
Qed.

Lemma shl_u32_1 v : shl_u32 v 1 = 2 * (v mod 2 ^ 31).
Proof.
  unfold shl_u32. rewrite Z.land_ones by lia. rewrite Z.shiftl_mul_pow2 by lia.
  replace (2 ^ 32) with (2 * 2 ^ 31) by reflexivity.
  rewrite Z.mul_comm. rewrite Z.mul_mod_distr_l by lia. reflexivity.
Qed.

Lemma lor_double_1 w : 0 <= w -> Z.lor (2 * w) 1 = 2 * w + 1.
Proof.
  intros Hw. rewrite <- Z.lxor_lor.
  - rewrite <- Z.add_nocarry_lxor; [reflexivity|].
    change 1 with (Z.ones 1). rewrite Z.land_ones by lia.
    rewrite Z.mul_comm. apply Z.mod_mul. lia.
  - change 1 with (Z.ones 1). rewrite Z.land_ones by lia.
    rewrite Z.mul_comm. apply Z.mod_mul. lia.
Qed.

Lemma add_u8_debug n n' : add_u8 Debug n 1 = Done n' -> n' = n + 1 /\ n + 1 < 2 ^ 8.
Proof.
  unfold add_u8, add_uint. destruct (n + 1 <? 2 ^ 8) eqn:E; [|discriminate].
  intros H. injection H as <-. apply Z.ltb_lt in E. lia.
Qed.

(** In a debug build the loop keeps [value] below [2 ^ length] and [2 ^ 32]. *)
Lemma decode_loop_invariant :
  forall l T v n c, 0 <= n < 2 ^ 8 -> 0 <= v < 2 ^ 32 -> v < 2 ^ n ->
  decode_loop Debug T l v n = Done (Ok c) ->
  0 <= length c < 2 ^ 8 /\ 0 <= value c < 2 ^ 32 /\ value c < 2 ^ length c.
Proof.
  fix IH 1. intros [|h [|lo rest]] T v n c Hn Hv Hvn H; cbn [decode_loop] in H.
  - injection H as <-. cbn. lia.
  - injection H as <-. cbn. lia.
  - destruct (round_div Debug h T) as [hp|]; cbn [bind] in H; [|discriminate].
    destruct (round_div Debug lo T) as [lp|]; cbn [bind] in H; [|discriminate].
    assert (Hm : 0 <= v mod 2 ^ 31 <= v /\ v mod 2 ^ 31 < 2 ^ 31).
    { pose proof (Z.mod_pos_bound v (2 ^ 31) ltac:(lia)).
      pose proof (Z.mod_le v (2 ^ 31) ltac:(lia) ltac:(lia)). lia. }
    assert (Hp : 2 ^ (n + 1) = 2 * 2 ^ n) by (rewrite Z.pow_add_r by lia; lia).
    destruct ((hp =? 3) && (lp =? 1)).
    + destruct (add_u8 Debug n 1) as [n'|] eqn:E; cbn [bind] in H; [|discriminate].
      apply add_u8_debug in E as [-> Hn'].
      apply (IH rest T (Z.lor (shl_u32 v 1) 1) (n + 1) c); [lia | | |exact H];
        rewrite shl_u32_1, lor_double_1 by lia; lia.
    + destruct ((hp =? 1) && (lp =? 3)).
      * destruct (add_u8 Debug n 1) as [n'|] eqn:E; cbn [bind] in H; [|discriminate].
        apply add_u8_debug in E as [-> Hn'].
        apply (IH rest T (shl_u32 v 1) (n + 1) c); [lia | | |exact H];
          rewrite shl_u32_1; lia.
      * destruct ((BREAK_PULSE_LENGTH <? h) || (BREAK_PULSE_LENGTH <? lo)); [|discriminate].
        injection H as <-. cbn. lia.
Qed.

Lemma position_app_quiet pre q :
  Forall (fun x => x <= BREAK_PULSE_LENGTH) pre ->
  position is_break (pre ++ q) = option_map (fun i => List.length pre + i)%nat (position is_break q).
Proof.
  induction 1 as [|x pre Hx HF IH]; cbn [List.app position List.length].
  - destruct (position is_break q); reflexivity.
  - unfold is_break at 1. replace (BREAK_PULSE_LENGTH <? x) with false
      by (symmetry; apply Z.ltb_ge; exact Hx).
    rewrite IH. destruct (position is_break q); reflexivity.
Qed.

Lemma position_lt f l i : position f l = Some i -> (i < List.length l)%nat.
Proof.
  revert i. induction l as [|x l IH]; intros i H; cbn [position List.length] in *.
  - discriminate.
  - destruct (f x); [injection H as <-; lia|].
    destruct (position f l) as [j|]; [|discriminate]. injection H as <-.
    specialize (IH j eq_refl). lia.
Qed.

Lemma add_uint_release bits a b r :
  add_uint bits Debug a b = Done r -> add_uint bits Release a b = Done r.
Proof. unfold add_uint. destruct (a + b <? 2 ^ bits); congruence. Qed.

Lemma sum_from_release :
  forall l acc s, sum_from Debug acc l = Done s -> sum_from Release acc l = Done s.
Proof.
  induction l as [|x l IH]; intros acc s H; cbn [sum_from] in *; [exact H|].
  destruct (add_u16 Debug acc x) as [a|] eqn:E; cbn [bind] in H; [|discriminate].
  unfold add_u16 in *. rewrite (add_uint_release _ _ _ _ E). exact (IH a s H).
Qed.

Lemma round_div_release x d r :
  round_div Debug x d = Done r -> round_div Release x d = Done r.
Proof.
  unfold round_div.
  destruct (div_uint d 2) as [h|]; cbn [bind]; [|discriminate].
  destruct (add_u16 Debug x h) as [t|] eqn:E; cbn [bind]; [|discriminate].
  unfold add_u16 in *. rewrite (add_uint_release _ _ _ _ E). exact (fun H => H).
Qed.

Lemma decode_loop_release :
  forall l T v n r, decode_loop Debug T l v n = Done r -> decode_loop Release T l v n = Done r.
Proof.
  fix IH 1. intros [|h [|lo rest]] T v n r H; cbn [decode_loop] in *; try exact H.
  destruct (round_div Debug h T) as [hp|] eqn:E1; cbn [bind] in H; [|discriminate].
  destruct (round_div Debug lo T) as [lp|] eqn:E2; cbn [bind] in H; [|discriminate].
  rewrite (round_div_release _ _ _ E1), (round_div_release _ _ _ E2). cbn [bind].
  destruct ((hp =? 3) && (lp =? 1)).
  - destruct (add_u8 Debug n 1) as [n'|] eqn:E; cbn [bind] in H; [|discriminate].
    unfold add_u8 in E. unfold add_u8. rewrite (add_uint_release _ _ _ _ E). cbn [bind].
    exact (IH rest T _ _ r H).
  - destruct ((hp =? 1) && (lp =? 3)); [|exact H].
    destruct (add_u8 Debug n 1) as [n'|] eqn:E; cbn [bind] in H; [|discriminate].
    unfold add_u8 in E. unfold add_u8. rewrite (add_uint_release _ _ _ _ E). cbn [bind].
    exact (IH rest T _ _ r H).
Qed.

(** ** Theorems *)

(** [round_div] rounds to the nearest integer, halves upwards: on a [u16]
    dividend whose sum with half the divisor does not overflow, it returns [k]
    exactly when the dividend lies in [[k*d - d/2, (k+1)*d - d/2)]. *)
Theorem round_div_nearest pr x d k
    (Hd : 0 < d) (Hx : 0 <= x) (Hno : x + d / 2 < 2 ^ 16) :
  round_div pr x d = Done k <-> k * d - d / 2 <= x < (k + 1) * d - d / 2.
Proof.
  rewrite round_div_value by assumption.
  pose proof (div_exact_iff (x + d / 2) d k Hd) as Hk. split.
  - intros H. injection H as H. apply Hk in H. lia.
  - intros H. f_equal. apply Hk. lia.
Qed.

Lemma round_div_nearest_witness :
  round_div Debug 1000 333 = Done 3 /\
  3 * 333 - 333 / 2 <= 1000 < (3 + 1) * 333 - 333 / 2.
Proof.
  split; [reflexivity|].
  apply (round_div_nearest Debug 1000 333 3); [lia | lia | vm_compute; reflexivity | reflexivity].
Defined.

(** [round_div] panics on a zero divisor in every build, and in a debug build
    when [dividend + divisor / 2] exceeds [u16::MAX]. *)
Theorem round_div_panics pr x d :
  (0 <= x < 2 ^ 16 -> round_div pr x 0 = Panic DivideByZero) /\
  (0 < d -> 2 ^ 16 <= x + d / 2 -> round_div Debug x d = Panic Overflow).
Proof.
  split.
  - intros Hx. unfold round_div, div_uint. cbn [Z.eqb bind Z.div].
    unfold add_u16, add_uint. rewrite Z.add_0_r.
    replace (x <? 2 ^ 16) with true by (symmetry; apply Z.ltb_lt; lia). reflexivity.
  - intros Hd Hno. unfold round_div, div_uint.
    replace (2 =? 0) with false by reflexivity. cbn [bind].
    unfold add_u16, add_uint.
    replace (x + d / 2 <? 2 ^ 16) with false by (symmetry; apply Z.ltb_ge; lia).
    reflexivity.
Qed.

(** [decode] fails with [TooShort] exactly when the input has a break and
    fewer than four intervals follow the first one. *)
Theorem decode_too_short_iff pr p :
  decode pr p = Done (Err TooShort) <->
  exists i, position is_break p = Some i /\ (List.length p < i + 5)%nat.
Proof.
  unfold decode. destruct (position is_break p) as [i|] eqn:Ep.
  - rewrite length_skipn. split.
    + intros H. exists i. split; [reflexivity|].
      destruct ((List.length p - S i <? 4)%nat) eqn:E; [apply Nat.ltb_lt in E; lia|].
      destruct (sum_u16 pr (firstn 4 (skipn (S i) p))); cbn [bind] in H; [|discriminate].
      apply decode_loop_err in H as (h & lo & pre & post & He & _). discriminate.
    + intros [j [Hj Hlen]]. injection Hj as <-.
      replace ((List.length p - S i <? 4)%nat) with true
        by (symmetry; apply Nat.ltb_lt; lia). reflexivity.
  - split; [discriminate|]. intros [i [Hi _]]. discriminate.
Qed.

(** An [InvalidPulseLength(high, low)] error names a pair of the input's
    intervals: the pair at an even offset after the first break, and neither
    interval is longer than [BREAK_PULSE_LENGTH]. *)
Theorem decode_invalid_pair pr p h lo
    (H : decode pr p = Done (Err (InvalidPulseLength h lo))) :
  exists i pre post, position is_break p = Some i /\
    skipn (S i) p = pre ++ h :: lo :: post /\ Nat.Even (List.length pre) /\
    h <= BREAK_PULSE_LENGTH /\ lo <= BREAK_PULSE_LENGTH.
Proof.
  unfold decode in H. destruct (position is_break p) as [i|]; [|discriminate].
  destruct ((List.length (skipn (S i) p) <? 4)%nat); [discriminate|].
  destruct (sum_u16 pr (firstn 4 (skipn (S i) p))); cbn [bind] in H; [|discriminate].
  apply decode_loop_err in H as (h0 & lo0 & pre & post & He & Hl & Hev & Hh & Hlo).
  injection He as <- <-. exists i, pre, post. auto.
Qed.

Lemma decode_invalid_pair_witness :
  decode Debug [5000; 500; 500; 500; 500] = Done (Err (InvalidPulseLength 500 500)) /\
  exists i pre post, position is_break [5000; 500; 500; 500; 500] = Some i /\
    skipn (S i) [5000; 500; 500; 500; 500] = pre ++ 500 :: 500 :: post /\
    Nat.Even (List.length pre) /\ 500 <= BREAK_PULSE_LENGTH /\ 500 <= BREAK_PULSE_LENGTH.
Proof.
  split; [reflexivity|]. apply (decode_invalid_pair Debug). reflexivity.
Defined.

(** In a debug build every decoded code keeps the [Code] invariant: its
    [length] fits a [u8], its [value] a [u32], and no bit of [value] at or above
    [length] is set. *)
Theorem decode_code_invariant p c (H : decode Debug p = Done (Ok c)) :
  0 <= length c < 2 ^ 8 /\ 0 <= value c < 2 ^ 32 /\ value c < 2 ^ length c.
Proof.
  unfold decode in H. destruct (position is_break p) as [i|]; [|discriminate].
  destruct ((List.length (skipn (S i) p) <? 4)%nat); [discriminate|].
  destruct (sum_u16 Debug (firstn 4 (skipn (S i) p))); cbn [bind] in H; [|discriminate].
  exact (decode_loop_invariant _ _ 0 0 c ltac:(lia) ltac:(lia) ltac:(reflexivity) H).
Qed.

Lemma decode_code_invariant_witness :
  decode Debug short_pulses = Done (Ok (mkCode 13 4)) /\
  0 <= 4 < 2 ^ 8 /\ 0 <= 13 < 2 ^ 32 /\ 13 < 2 ^ 4.
Proof.
  split; [reflexivity|]. exact (decode_code_invariant short_pulses (mkCode 13 4) eq_refl).
Defined.

(** Intervals before the first break are skipped: prefixing an input with
    intervals no longer than [BREAK_PULSE_LENGTH] does not change what [decode]
    returns. *)
Theorem decode_skips_prefix pr pre q
    (Hpre : Forall (fun x => x <= BREAK_PULSE_LENGTH) pre) :
  decode pr (pre ++ q) = decode pr q.
Proof.
  unfold decode. rewrite (position_app_quiet pre q Hpre).
  destruct (position is_break q) as [i|]; cbn [option_map]; [|reflexivity].
  replace (S (List.length pre + i)) with (List.length pre + S i)%nat by lia.
  rewrite skipn_app, skipn_all2 by lia. cbn [List.app].
  replace (List.length pre + S i - List.length pre)%nat with (S i) by lia.
  reflexivity.
Qed.

Lemma decode_skips_prefix_witness :
  decode Debug ([300; 2000] ++ tl short_pulses) = decode Debug (tl short_pulses).
Proof.
  apply decode_skips_prefix. repeat constructor; unfold BREAK_PULSE_LENGTH; lia.
Defined.

(** A packet repeated after a break decodes to the same code: if [b :: B]
    decodes, [B] having an even number (at least 4) of intervals, then [b :: B]
    followed by [b], [y] and more intervals decodes to the same code, provided
    rounding the pair [(b, y)] completes (does not panic) and the pair does not
    round to a symbol [(3, 1)] or [(1, 3)]. *)
Theorem decode_repeat pr b B y B' s hb hy c
    (Hb : BREAK_PULSE_LENGTH < b) (HB : (4 <= List.length B)%nat)
    (Hev : Nat.Even (List.length B))
    (Hdec : decode pr (b :: B) = Done (Ok c))
    (Hs : sum_u16 pr (firstn 4 B) = Done s)
    (Hhb : round_div pr b (s / 8) = Done hb) (Hhy : round_div pr y (s / 8) = Done hy)
    (Hsym : ~ ((hb = 3 /\ hy = 1) \/ (hb = 1 /\ hy = 3))) :
  decode pr (b :: B ++ b :: y :: B') = Done (Ok c).
Proof.
  assert (Hpos : forall q, position is_break (b :: q) = Some 0%nat).
  { intros q. cbn [position]. unfold is_break at 1.
    replace (BREAK_PULSE_LENGTH <? b) with true by (symmetry; apply Z.ltb_lt; exact Hb).
    reflexivity. }
  unfold decode in Hdec |- *. rewrite Hpos in Hdec |- *. cbn [skipn] in Hdec |- *.
  rewrite length_app.
  replace ((List.length B <? 4)%nat) with false in Hdec
    by (symmetry; apply Nat.ltb_ge; exact HB).
  replace ((List.length B + List.length (b :: y :: B') <? 4)%nat) with false
    by (symmetry; apply Nat.ltb_ge; lia).
  rewrite firstn_app. replace (4 - List.length B)%nat with 0%nat by lia.
  change (firstn 0 (b :: y :: B')) with (@nil Z). rewrite app_nil_r.
  rewrite Hs in Hdec |- *. cbn [bind] in Hdec |- *.
  destruct (decode_loop_app pr (s / 8) B (b :: y :: B') 0 0 c Hev Hdec) as [H|H];
    rewrite H; [reflexivity|].
  cbn [decode_loop]. rewrite Hhb, Hhy. cbn [bind].
  replace ((hb =? 3) && (hy =? 1)) with false
    by (destruct (Z.eqb_spec hb 3), (Z.eqb_spec hy 1); tauto).
  replace ((hb =? 1) && (hy =? 3)) with false
    by (destruct (Z.eqb_spec hb 1), (Z.eqb_spec hy 3); tauto).
  replace (BREAK_PULSE_LENGTH <? b) with true
    by (symmetry; apply Z.ltb_lt; exact Hb).
  destruct c. reflexivity.
Qed.

Lemma decode_repeat_witness :
  decode Debug ([3300; 3300; 1100; 1100; 3300] ++ [3300; 2000; 1100])
  = Done (Ok (mkCode 2 2)).
Proof.
  apply (decode_repeat Debug 3300 [3300; 1100; 1100; 3300] 2000 [1100] 8800 3 2
           (mkCode 2 2)); try reflexivity;
    first [ exists 2%nat; reflexivity | unfold BREAK_PULSE_LENGTH; cbn; lia ].
Defined.

(** A release build agrees with a debug build: whenever [decode] returns in a
    debug build, a release build returns the same result on the same input
    (the two differ only where the debug build panics). *)
Theorem decode_release_agrees p r (H : decode Debug p = Done r) :
  decode Release p = Done r.
Proof.
  unfold decode in *. destruct (position is_break p) as [i|]; [|exact H].
  destruct ((List.length (skipn (S i) p) <? 4)%nat); [exact H|].
  destruct (sum_u16 Debug (firstn 4 (skipn (S i) p))) as [s|] eqn:E; cbn [bind] in H;
    [|discriminate].
  unfold sum_u16 in *. rewrite (sum_from_release _ _ _ E). cbn [bind].
  exact (decode_loop_release _ _ _ _ _ H).
Qed.

Lemma decode_release_agrees_witness :
  decode Debug full_pulses = Done (Ok (mkCode 4764324 24)) /\
  decode Release full_pulses = Done (Ok (mkCode 4764324 24)).
Proof.
  split; [reflexivity|]. exact (decode_release_agrees full_pulses _ eq_refl).
Defined.

End DecoderExtras.

(** ** Further properties of [serialize] and [deserialize] *)

Module SerdeExtras.
Import Decoder Serde SerdeFacts.

Lemma hex_value_bound :
  forall l acc, forallb is_hex l = true -> 0 <= acc ->
  0 <= fold_left hex_step l acc < (acc + 1) * p16 (List.length l).
Proof.
  induction l as [|c l IH]; intros acc Hl Hacc; cbn [fold_left List.length] in *.
  - change (p16 0) with 1. lia.
  - apply andb_prop in Hl as [Hc Hl]. unfold is_hex in Hc.
    destruct (to_digit16 c) as [d|] eqn:Ed; [|discriminate].
    apply to_digit16_range in Ed as Hd.
    assert (Hs : hex_step acc c = acc * 16 + d) by (unfold hex_step; rewrite Ed; reflexivity).
    rewrite Hs. specialize (IH (acc * 16 + d) Hl ltac:(lia)).
    rewrite p16_S. pose proof (p16_pos (List.length l)). nia.
Qed.

Lemma in_widths n : (1 <= n <= 8)%nat -> In (Z.of_nat n * 4) [4; 8; 12; 16; 20; 24; 28; 32].
Proof. intros H. do 9 (destruct n as [|n]; [cbn; lia|]). lia. Qed.

(** A [u32] value written with a width of [k] digits comes back unchanged,
    with a width of [max k (digits of the value)]. *)
Lemma serialize_deserialize_width k v :
  (1 <= k <= 8)%nat -> 0 <= v < p16 8 ->
  exists m s, (k <= m <= 8)%nat /\ (v < p16 k -> m = k) /\
    serialize (mkCode v (Z.of_nat k * 4)) = ROk s /\
    deserialize s = ROk (mkCode v (Z.of_nat m * 4)).
Proof.
  intros Hk Hv.
  destruct (fmt_hex_loop_fixed 8 v [] ltac:(lia) Hv) as [j [Hj [Hvj [Hmin Heq]]]].
  assert (Hpad : pad_zeros k (lower_hex v) = hex_fixed (Nat.max k j) v).
  { unfold lower_hex. rewrite Heq, app_nil_r. unfold pad_zeros. rewrite hex_fixed_length.
    destruct (Nat.le_gt_cases j k) as [H|H].
    - rewrite <- (hex_fixed_zeros (k - j) j v) by lia. f_equal. lia.
    - replace (k - j)%nat with 0%nat by lia. cbn [List.repeat List.app]. f_equal. lia. }
  set (m := Nat.max k j) in *.
  assert (Hvm : v < p16 m) by (pose proof (p16_mono j m ltac:(lia)); lia).
  exists m, (string_of_list_ascii (hex_fixed m v)). split; [lia|]. split.
  { intros Hvk. destruct (Nat.le_gt_cases j k) as [H|H]; [lia|].
    destruct Hmin as [->|Hmin]; [lia|].
    pose proof (p16_mono k (j - 1) ltac:(lia)). lia. }
  split; [rewrite serialize_ok_width, Hpad; reflexivity|].
  unfold deserialize.
  rewrite string_length_list, list_ascii_of_string_of_list_ascii, hex_fixed_length.
  replace (8 <? m)%nat with false by (symmetry; apply Nat.ltb_ge; lia).
  assert (Hne : hex_fixed m v <> []).
  { intros Hn. apply (f_equal (@List.length ascii)) in Hn.
    rewrite hex_fixed_length in Hn. cbn in Hn. lia. }
  rewrite from_str_radix16_hex, parse_hex_fixed by
    (first [lia | apply hex_fixed_is_hex | exact Hne]).
  reflexivity.
Qed.

(** ** Theorems *)

(** Serializing a [Code] with a [u32] value and a length of 4, 8, ..., 32 bits
    and deserializing the string gives the same [value] back, with a length of
    at least the original one and at most 32. *)
Theorem serde_value_preserved c
    (Hl : In (length c) [4; 8; 12; 16; 20; 24; 28; 32]) (Hv : 0 <= value c < 2 ^ 32) :
  exists s c', serialize c = ROk s /\ deserialize s = ROk c' /\
    value c' = value c /\ length c <= length c' <= 32 /\ length c' mod 4 = 0.
Proof.
  destruct c as [v len]. cbn [length value] in *.
  assert (Hk : exists k, (1 <= k <= 8)%nat /\ len = Z.of_nat k * 4).
  { cbn [In] in Hl.
    repeat destruct Hl as [Hl|Hl]; try contradiction;
      exists (Z.to_nat (len / 4)); subst len; (split; [vm_compute; lia | reflexivity]). }
  destruct Hk as [k [Hk ->]]. replace (2 ^ 32) with (p16 8) in Hv by reflexivity.
  destruct (serialize_deserialize_width k v Hk ltac:(exact Hv))
    as (m & s & Hm & _ & Hser & Hde).
  exists s, (mkCode v (Z.of_nat m * 4)). cbn [value length].
  repeat split; try assumption; try lia.
  rewrite Z.mod_mul by lia. reflexivity.
Qed.

Lemma serde_value_preserved_witness :
  serialize (mkCode 255 4) = ROk "ff"%string /\
  deserialize "ff" = ROk (mkCode 255 8) /\
  exists s c', serialize (mkCode 255 4) = ROk s /\ deserialize s = ROk c' /\
    value c' = 255 /\ 4 <= length c' <= 32 /\ length c' mod 4 = 0.
Proof.
  split; [reflexivity|]. split; [reflexivity|].
  apply (serde_value_preserved (mkCode 255 4)); [cbn; lia | cbn; lia].
Defined.

(** Every [Code] that [deserialize] returns has a length of 4, 8, ..., 32 bits
    and a value with no bit set at or above its length, and serializing it
    gives a string that deserializes to the same [Code]. *)
Theorem deserialize_code_invariant s c (H : deserialize s = ROk c) :
  In (length c) [4; 8; 12; 16; 20; 24; 28; 32] /\ 0 <= value c < 2 ^ length c /\
  exists s', serialize c = ROk s' /\ deserialize s' = ROk c.
Proof.
  unfold deserialize in H. rewrite string_length_list in H.
  set (l := list_ascii_of_string s) in *.
  destruct (8 <? List.length l)%nat eqn:E8; [discriminate|]. apply Nat.ltb_ge in E8.
  destruct (from_str_radix16 l) as [v|k] eqn:Ep; [|discriminate]. injection H as <-.
  apply from_str_radix16_ok in Ep as (body & Hl & Hne & Hhex & ->); [|exact E8].
  assert (Hlen : (1 <= List.length body <= List.length l)%nat).
  { destruct body; [contradiction|]. destruct Hl as [-> | ->]; cbn [List.length]; lia. }
  destruct (hex_value_bound body 0 Hhex ltac:(lia)) as [Hv0 Hv1].
  pose proof (p16_mono (List.length body) (List.length l) ltac:(lia)) as Hmono.
  fold (hex_value body) in Hv0, Hv1.
  set (n := List.length l) in *. cbn [length value].
  split; [apply in_widths; lia|].
  rewrite pow2_p16. split; [lia|].
  pose proof (p16_mono n 8 E8) as H8.
  destruct (serialize_deserialize_width n (hex_value body) ltac:(lia) ltac:(lia))
    as (m & s' & Hm & Hmn & Hser & Hde).
  exists s'. split; [exact Hser|]. rewrite Hde, Hmn by lia. reflexivity.
Qed.

Lemma deserialize_code_invariant_witness :
  deserialize "+F" = ROk (mkCode 15 8) /\
  In 8 [4; 8; 12; 16; 20; 24; 28; 32] /\ 0 <= 15 < 2 ^ 8 /\
  exists s', serialize (mkCode 15 8) = ROk s' /\ deserialize s' = ROk (mkCode 15 8).
Proof.
  split; [reflexivity|]. exact (deserialize_code_invariant "+F" (mkCode 15 8) eq_refl).
Defined.

(** [deserialize] rejects strings longer than 8 bytes with the "no more
    than 8 characters" error; a string of at most 8 bytes is accepted exactly
    when it is 1 or more hex digits (either case), optionally after one leading
    ['+'], with the base-16 value of the digits and
    [length = 4 * (number of bytes)]; every other such string, the empty one
    included, is rejected with a parse error. *)
Theorem deserialize_spec s :
  ((8 < String.length s)%nat -> deserialize s = RErr TooLong) /\
  deserialize EmptyString = RErr (ParseError Empty) /\
  ((String.length s <= 8)%nat ->
   (forall c, deserialize s = ROk c <->
      exists body, (list_ascii_of_string s = body \/
                    list_ascii_of_string s = "+"%char :: body) /\
        body <> [] /\ forallb is_hex body = true /\
        c = mkCode (hex_value body) (Z.of_nat (String.length s) * 4)) /\
   (forall e, deserialize s = RErr e -> exists k, e = ParseError k)).
Proof.
  split; [|split; [reflexivity|]].
  { intros H. unfold deserialize. apply Nat.ltb_lt in H. rewrite H. reflexivity. }
  intros Hle. unfold deserialize.
  replace (8 <? String.length s)%nat with false by (symmetry; apply Nat.ltb_ge; lia).
  rewrite string_length_list in Hle. split.
  - intros c. destruct (from_str_radix16 (list_ascii_of_string s)) as [v|k] eqn:E.
    + pose proof (proj1 (from_str_radix16_ok _ v Hle) E) as (body & Hb & Hne & Hh & Hv).
      split.
      * intros H. injection H as <-. exists body. subst v. auto.
      * intros (body' & Hb' & Hne' & Hh' & ->).
        assert (Hv' : from_str_radix16 (list_ascii_of_string s) = ROk (hex_value body'))
          by (apply from_str_radix16_ok; [exact Hle | exists body'; auto]).
        rewrite E in Hv'. injection Hv' as ->. reflexivity.
    + split; [discriminate|].
      intros (body & Hb & Hne & Hh & _).
      assert (Hv' : from_str_radix16 (list_ascii_of_string s) = ROk (hex_value body))
        by (apply from_str_radix16_ok; [exact Hle | exists body; auto]).
      congruence.
  - intros e. destruct (from_str_radix16 (list_ascii_of_string s)) as [v|k];
      [discriminate|]. intros H. injection H as <-. exists k. reflexivity.
Qed.

End SerdeExtras.

(** ** [receive] and its use of [decode] *)

Module CaptureFacts.
Import Decoder DecoderFacts DecoderExtras Capture.

Lemma try_into_u16_some x y : try_into_u16 x = Some y -> y = x /\ 0 <= x <= 65535.
Proof.
  unfold try_into_u16. destruct (0 <=? x) eqn:E1; destruct (x <=? 65535) eqn:E2;
    cbn [andb]; try discriminate.
  intros H. injection H as <-. apply Z.leb_le in E1, E2. lia.
Qed.

Lemma elapsed_nonneg t lt : 0 <= elapsed t lt.
Proof. unfold elapsed. lia. Qed.

(** The second loop appends intervals to what it started with; each fits a
    [u16], and every one but the last is at most 7000 us. *)
Lemma read_pulses_shape :
  forall evs lt acc p, read_pulses evs lt acc = Received p ->
  exists S, p = acc ++ S /\ Forall (fun x => 0 <= x <= 65535) S /\
    Forall (fun x => x <= 7000) (removelast S).
Proof.
  induction evs as [|ev evs IH]; intros lt acc p H; cbn [read_pulses] in H;
    [discriminate|].
  destruct ev as [lvl t| |]; [| |discriminate].
  - destruct (try_into_u16 (as_micros (elapsed t lt))) as [x|] eqn:Ex; [|discriminate].
    apply try_into_u16_some in Ex as [-> Hx].
    destruct (BREAK_PULSE_LENGTH <? elapsed t lt) eqn:Eb.
    + injection H as <-. exists [as_micros (elapsed t lt)]. split; [reflexivity|].
      split; [repeat constructor; lia | constructor].
    + apply Z.ltb_ge in Eb. unfold BREAK_PULSE_LENGTH in Eb.
      assert (H7 : as_micros (elapsed t lt) <= 7000).
      { unfold as_micros. change 7000 with (7000000 / 1000).
        apply Z.div_le_mono; lia. }
      destruct (IH t _ _ H) as [S [-> [HS HR]]].
      exists (as_micros (elapsed t lt) :: S). split; [rewrite <- app_assoc; reflexivity|].
      split; [constructor; [lia | exact HS]|].
      destruct S as [|y S]; [constructor|]. cbn [removelast].
      constructor; [exact H7 | exact HR].
  - injection H as <-. exists []. repeat constructor. rewrite app_nil_r. reflexivity.
Qed.

Lemma wait_start_shape :
  forall evs lt lp p, wait_start evs lt lp = Received p ->
  exists a b S, p = a :: b :: S /\ 7000 <= a <= 65535 /\ 0 <= b <= 6999 /\
    Forall (fun x => 0 <= x <= 65535) S /\ Forall (fun x => x <= 7000) (removelast S).
Proof.
  induction evs as [|ev evs IH]; intros lt lp p H; cbn [wait_start] in H;
    [discriminate| destruct ev as [lvl t| |]; [|exact (IH _ _ _ H)|discriminate]].
  destruct (level_eqb lvl High && (BREAK_PULSE_LENGTH <? elapsed t lt)).
  - exact (IH _ _ _ H).
  - destruct (level_eqb lvl Low && (BREAK_PULSE_LENGTH <? lp) &&
              (elapsed t lt <? BREAK_PULSE_LENGTH)) eqn:E; [|exact (IH _ _ _ H)].
    apply andb_prop in E as [E E3]. apply andb_prop in E as [_ E2].
    apply Z.ltb_lt in E2, E3. unfold BREAK_PULSE_LENGTH in E2, E3.
    destruct (try_into_u16 (as_micros lp)) as [a|] eqn:Ea; [|discriminate].
    destruct (try_into_u16 (as_micros (elapsed t lt))) as [b|] eqn:Eb; [|discriminate].
    apply try_into_u16_some in Ea as [-> Ha]. apply try_into_u16_some in Eb as [-> Hb].
    destruct (read_pulses_shape _ _ _ _ H) as [S [-> [HS HR]]].
    exists (as_micros lp), (as_micros (elapsed t lt)), S.
    split; [reflexivity|]. split; [|split; [|split; assumption]].
    + split; [|lia]. unfold as_micros. change 7000 with (7000000 / 1000).
      apply Z.div_le_mono; lia.
    + split; [lia|]. unfold as_micros. change 6999 with (6999999 / 1000).
      apply Z.div_le_mono; lia.
Qed.

(** ** Theorems *)

(** A capture that [receive] returns starts with the break it synchronised on
    (at least 7000 us) and the first interval after it (below 7000 us); every
    interval fits a [u16], and every later one but the last is at most
    7000 us. *)
Theorem receive_shape evs p (H : receive evs = Received p) :
  exists a b S, p = a :: b :: S /\ 7000 <= a <= 65535 /\ 0 <= b < 7000 /\
    Forall (fun x => 0 <= x <= 65535) S /\ Forall (fun x => x <= 7000) (removelast S).
Proof.
  unfold receive in H.
  destruct (poll_blocking evs) as [[[lvl t]|] rest| |]; try discriminate.
  destruct (wait_start_shape _ _ _ _ H) as (a & b & S & Hp & Ha & Hb & HS & HR).
  exists a, b, S. repeat split; auto; lia.
Qed.

Lemma receive_shape_witness :
  receive capture_events = Received [8000; 1000; 333; 1000; 333; 333; 1000; 1000; 333; 10000] /\
  exists a b S, [8000; 1000; 333; 1000; 333; 333; 1000; 1000; 333; 10000] = a :: b :: S /\
    7000 <= a <= 65535 /\ 0 <= b < 7000 /\
    Forall (fun x => 0 <= x <= 65535) S /\ Forall (fun x => x <= 7000) (removelast S).
Proof.
  split; [reflexivity|]. exact (receive_shape capture_events _ eq_refl).
Defined.

(** [decode] on a capture of [receive] synchronises on the capture's first
    interval: it never reports [NoStart], and reports [TooShort] exactly when
    the capture has fewer than five intervals. *)
Theorem receive_decode_sync evs p (H : receive evs = Received p) :
  position is_break p = Some 0%nat /\
  (forall pr, decode pr p <> Done (Err NoStart)) /\
  (forall pr, decode pr p = Done (Err TooShort) <-> (List.length p < 5)%nat).
Proof.
  unfold receive in H.
  destruct (poll_blocking evs) as [[[lvl t]|] rest| |]; try discriminate.
  destruct (wait_start_shape _ _ _ _ H) as (a & b & q & -> & Ha & _).
  assert (Hpos : position is_break (a :: b :: q) = Some 0%nat).
  { cbn [position]. unfold is_break at 1, Decoder.BREAK_PULSE_LENGTH.
    replace (3000 <? a) with true by (symmetry; apply Z.ltb_lt; lia). reflexivity. }
  split; [exact Hpos|].
  unfold decode. rewrite Hpos. cbn [skipn].
  split; intros pr.
  - destruct ((List.length (b :: q) <? 4)%nat); [discriminate|].
    destruct (sum_u16 pr (firstn 4 (b :: q))); cbn [bind]; [|discriminate].
    apply decode_loop_not_no_start.
  - cbn [List.length]. destruct ((S (List.length q) <? 4)%nat) eqn:E.
    + apply Nat.ltb_lt in E. split; [lia | reflexivity].
    + apply Nat.ltb_ge in E. split; [|lia]. intros H'.
      destruct (sum_u16 pr (firstn 4 (b :: q))); cbn [bind] in H'; [|discriminate].
      apply decode_loop_err in H' as (h & lo & pre & post & He & _). discriminate.
Qed.

Lemma receive_decode_sync_witness :
  receive capture_events = Received [8000; 1000; 333; 1000; 333; 333; 1000; 1000; 333; 10000] /\
  position is_break [8000; 1000; 333; 1000; 333; 333; 1000; 1000; 333; 10000] = Some 0%nat /\
  (forall pr, decode pr [8000; 1000; 333; 1000; 333; 333; 1000; 1000; 333; 10000]
              <> Done (Err NoStart)) /\
  (forall pr, decode pr [8000; 1000; 333; 1000; 333; 333; 1000; 1000; 333; 10000]
              = Done (Err TooShort) <-> (10 < 5)%nat).
Proof.
  split; [reflexivity|]. exact (receive_decode_sync capture_events _ eq_refl).
Defined.

End CaptureFacts.
